(** * GameClient: state reconciliation, smoothing, camera and input intents

    A shallow embedding of [src/game.js] (class [GameClient]).

    Modelling choices, all read off the source:
    - In the model of the client state, JavaScript numbers are rationals
      ([Q]) and their arithmetic is exact; the frame cursor is integer valued
      and kept in [Z] with JavaScript's [%] as [Z.rem].  The code computes on
      binary64 doubles: where rounding changes what the code does (the
      smoothing step and the animation loop of [render]) the arithmetic is
      given a second time on binary64 values ([smooth64],
      [smoothing_factor64], [advance_frames64], ...), and the statements on
      smoothing and on frame cycling are made about those.
    - [this.players], [this.avatars] (plain objects used as maps) and
      [this.playerRenderState], [this.loadedImages] ([Map]s) are [gmap]s with
      string keys; [this.pressedDirections] (a [Set]) is a [gset string] and
      [this.heldOrder] (an array) is a list.  For the plain objects the
      [gmap] holds the own properties; the names they inherit from
      [Object.prototype] are listed in [inherited_keys], and the statements
      that depend on a lookup finding nothing are made for identifiers
      outside that list.
    - A player record always carries numeric [x] and [y] (every handler reads
      them off the incoming record); all its other properties live in a map
      from property name to value, so a record may or may not carry
      [username], [avatar], [facing], [isMoving], ...
    - Handlers are state transformers; the handlers of the input tracker
      also return the list of messages handed to [websocket.send]. *)

From Stdlib Require Import Floats.
From Stdlib Require Import ZArith QArith Qabs Qminmax Qround Lqa Lia.
From stdpp Require Import gmap strings list fin_maps.

Set Warnings "-inexact-float".

Local Open Scope string_scope.

(** ** Data model *)

(** Values of the non-coordinate properties of a player record. *)
Inductive jsval : Type :=
| JNull
| JBool (b : bool)
| JNum (q : Q)
| JStr (s : string).

(** JavaScript truthiness of a property read ([None] is [undefined]). *)
Definition truthy (v : option jsval) : bool :=
  match v with
  | None | Some JNull => false
  | Some (JBool b) => b
  | Some (JNum q) => negb (Qeq_bool q 0)
  | Some (JStr s) => negb (String.eqb s "")
  end.

Record player : Type := Player {
  pos_x : Q;                      (* p.x *)
  pos_y : Q;                      (* p.y *)
  fields : gmap string jsval      (* every other property of the record *)
}.

Definition set_field (k : string) (v : jsval) (p : player) : player :=
  {| pos_x := pos_x p; pos_y := pos_y p; fields := <[k := v]> (fields p) |}.

(** An avatar: its name and, per direction, the base64 sources of its frames. *)
Record avatar : Type := Avatar {
  av_name : string;
  av_frames : gmap string (list string)
}.

(** One entry of [playerRenderState]. *)
Record render_state : Type := RenderState {
  renderX : Q;
  renderY : Q;
  animMs : Q;
  frameIndex : Z
}.

Record jump_state : Type := JumpState {
  isJumping : bool;
  elapsedMs : Q;
  durationMs : Q;
  peakOffsetPx : Q
}.

(** Messages handed to [websocket.send]. *)
Inductive wire : Type :=
| WMove (direction : string)
| WStop
| WJoin (username : string).

(** The fields of [GameClient] that the handlers read or write. *)
Record GameClient : Type := Client {
  worldWidth : Q;
  worldHeight : Q;
  canvasWidth : Q;                                   (* this.canvas.width *)
  canvasHeight : Q;                                  (* this.canvas.height *)
  players : gmap string player;
  avatars : gmap string avatar;
  myPlayerId : option string;                        (* null is None *)
  wsOpen : bool;                (* websocket && readyState === WebSocket.OPEN *)
  viewportX : Q;
  viewportY : Q;
  loadedImages : gmap string (gmap string (list string));
  playerRenderState : gmap string render_state;
  lastFrameTimeMs : Q;
  jumpState : jump_state;
  pressedDirections : gset string;
  heldOrder : list string
}.

Definition animationFrameDurationMs : Q := 120.
Definition positionSmoothingPerSecond : Q := 10.

(** The state the constructor leaves behind, for a window of the given size
    and a first reading [now] of [performance.now()]. *)
Definition initial (w h now : Q) : GameClient :=
  {| worldWidth := 2048; worldHeight := 2048;
     canvasWidth := w; canvasHeight := h;
     players := ∅; avatars := ∅; myPlayerId := None; wsOpen := false;
     viewportX := 0; viewportY := 0;
     loadedImages := ∅; playerRenderState := ∅;
     lastFrameTimeMs := now;
     jumpState := {| isJumping := false; elapsedMs := 0;
                     durationMs := 400; peakOffsetPx := 12 |};
     pressedDirections := ∅; heldOrder := [] |}.

(** Field updates ([this.f = v]). *)
Definition set_players (v : gmap string player) (c : GameClient) : GameClient :=
  {| worldWidth := worldWidth c; worldHeight := worldHeight c;
     canvasWidth := canvasWidth c; canvasHeight := canvasHeight c;
     players := v; avatars := avatars c; myPlayerId := myPlayerId c;
     wsOpen := wsOpen c; viewportX := viewportX c; viewportY := viewportY c;
     loadedImages := loadedImages c;
     playerRenderState := playerRenderState c;
     lastFrameTimeMs := lastFrameTimeMs c; jumpState := jumpState c;
     pressedDirections := pressedDirections c; heldOrder := heldOrder c |}.

Definition set_avatars (v : gmap string avatar) (c : GameClient) : GameClient :=
  {| worldWidth := worldWidth c; worldHeight := worldHeight c;
     canvasWidth := canvasWidth c; canvasHeight := canvasHeight c;
     players := players c; avatars := v; myPlayerId := myPlayerId c;
     wsOpen := wsOpen c; viewportX := viewportX c; viewportY := viewportY c;
     loadedImages := loadedImages c;
     playerRenderState := playerRenderState c;
     lastFrameTimeMs := lastFrameTimeMs c; jumpState := jumpState c;
     pressedDirections := pressedDirections c; heldOrder := heldOrder c |}.

Definition set_myPlayerId (v : option string) (c : GameClient) : GameClient :=
  {| worldWidth := worldWidth c; worldHeight := worldHeight c;
     canvasWidth := canvasWidth c; canvasHeight := canvasHeight c;
     players := players c; avatars := avatars c; myPlayerId := v;
     wsOpen := wsOpen c; viewportX := viewportX c; viewportY := viewportY c;
     loadedImages := loadedImages c;
     playerRenderState := playerRenderState c;
     lastFrameTimeMs := lastFrameTimeMs c; jumpState := jumpState c;
     pressedDirections := pressedDirections c; heldOrder := heldOrder c |}.

Definition set_wsOpen (v : bool) (c : GameClient) : GameClient :=
  {| worldWidth := worldWidth c; worldHeight := worldHeight c;
     canvasWidth := canvasWidth c; canvasHeight := canvasHeight c;
     players := players c; avatars := avatars c; myPlayerId := myPlayerId c;
     wsOpen := v; viewportX := viewportX c; viewportY := viewportY c;
     loadedImages := loadedImages c;
     playerRenderState := playerRenderState c;
     lastFrameTimeMs := lastFrameTimeMs c; jumpState := jumpState c;
     pressedDirections := pressedDirections c; heldOrder := heldOrder c |}.

Definition set_canvas (w h : Q) (c : GameClient) : GameClient :=
  {| worldWidth := worldWidth c; worldHeight := worldHeight c;
     canvasWidth := w; canvasHeight := h;
     players := players c; avatars := avatars c; myPlayerId := myPlayerId c;
     wsOpen := wsOpen c; viewportX := viewportX c; viewportY := viewportY c;
     loadedImages := loadedImages c;
     playerRenderState := playerRenderState c;
     lastFrameTimeMs := lastFrameTimeMs c; jumpState := jumpState c;
     pressedDirections := pressedDirections c; heldOrder := heldOrder c |}.

Definition set_viewport (vx vy : Q) (c : GameClient) : GameClient :=
  {| worldWidth := worldWidth c; worldHeight := worldHeight c;
     canvasWidth := canvasWidth c; canvasHeight := canvasHeight c;
     players := players c; avatars := avatars c; myPlayerId := myPlayerId c;
     wsOpen := wsOpen c; viewportX := vx; viewportY := vy;
     loadedImages := loadedImages c;
     playerRenderState := playerRenderState c;
     lastFrameTimeMs := lastFrameTimeMs c; jumpState := jumpState c;
     pressedDirections := pressedDirections c; heldOrder := heldOrder c |}.

Definition set_loadedImages (v : gmap string (gmap string (list string)))
    (c : GameClient) : GameClient :=
  {| worldWidth := worldWidth c; worldHeight := worldHeight c;
     canvasWidth := canvasWidth c; canvasHeight := canvasHeight c;
     players := players c; avatars := avatars c; myPlayerId := myPlayerId c;
     wsOpen := wsOpen c; viewportX := viewportX c; viewportY := viewportY c;
     loadedImages := v;
     playerRenderState := playerRenderState c;
     lastFrameTimeMs := lastFrameTimeMs c; jumpState := jumpState c;
     pressedDirections := pressedDirections c; heldOrder := heldOrder c |}.

Definition set_playerRenderState (v : gmap string render_state)
    (c : GameClient) : GameClient :=
  {| worldWidth := worldWidth c; worldHeight := worldHeight c;
     canvasWidth := canvasWidth c; canvasHeight := canvasHeight c;
     players := players c; avatars := avatars c; myPlayerId := myPlayerId c;
     wsOpen := wsOpen c; viewportX := viewportX c; viewportY := viewportY c;
     loadedImages := loadedImages c;
     playerRenderState := v;
     lastFrameTimeMs := lastFrameTimeMs c; jumpState := jumpState c;
     pressedDirections := pressedDirections c; heldOrder := heldOrder c |}.

Definition set_lastFrameTimeMs (v : Q) (c : GameClient) : GameClient :=
  {| worldWidth := worldWidth c; worldHeight := worldHeight c;
     canvasWidth := canvasWidth c; canvasHeight := canvasHeight c;
     players := players c; avatars := avatars c; myPlayerId := myPlayerId c;
     wsOpen := wsOpen c; viewportX := viewportX c; viewportY := viewportY c;
     loadedImages := loadedImages c;
     playerRenderState := playerRenderState c;
     lastFrameTimeMs := v; jumpState := jumpState c;
     pressedDirections := pressedDirections c; heldOrder := heldOrder c |}.

Definition set_jumpState (v : jump_state) (c : GameClient) : GameClient :=
  {| worldWidth := worldWidth c; worldHeight := worldHeight c;
     canvasWidth := canvasWidth c; canvasHeight := canvasHeight c;
     players := players c; avatars := avatars c; myPlayerId := myPlayerId c;
     wsOpen := wsOpen c; viewportX := viewportX c; viewportY := viewportY c;
     loadedImages := loadedImages c;
     playerRenderState := playerRenderState c;
     lastFrameTimeMs := lastFrameTimeMs c; jumpState := v;
     pressedDirections := pressedDirections c; heldOrder := heldOrder c |}.

Definition set_held (s : gset string) (o : list string)
    (c : GameClient) : GameClient :=
  {| worldWidth := worldWidth c; worldHeight := worldHeight c;
     canvasWidth := canvasWidth c; canvasHeight := canvasHeight c;
     players := players c; avatars := avatars c; myPlayerId := myPlayerId c;
     wsOpen := wsOpen c; viewportX := viewportX c; viewportY := viewportY c;
     loadedImages := loadedImages c;
     playerRenderState := playerRenderState c;
     lastFrameTimeMs := lastFrameTimeMs c; jumpState := jumpState c;
     pressedDirections := s; heldOrder := o |}.

(** ** Message Reconciler *)

(** Inbound messages, by [message.action] (and [message.success] for
    [join_game]). *)
Inductive message : Type :=
| JoinGameSuccess (playerId : string) (ps : gmap string player)
                  (avs : gmap string avatar)
| JoinGameFailure (error : string)
| PlayerJoined (id : string) (p : player) (av : avatar)
| PlayersMoved (ps : gmap string player)
| PlayerLeft (playerId : string)
| UnknownAction (action : string).

Definition seeded (x y : Q) : render_state :=
  {| renderX := x; renderY := y; animMs := 0; frameIndex := 0 |}.

Definition ensureRenderState (playerId : string) (x y : Q)
    (c : GameClient) : GameClient :=
  match playerRenderState c !! playerId with
  | Some _ => c
  | None =>
      set_playerRenderState (<[playerId := seeded x y]> (playerRenderState c)) c
  end.

(** [for (const id in ps) { const p = ps[id]; this.ensureRenderState(id, p.x, p.y); }] *)
Definition ensureRenderStates (ps : gmap string player)
    (c : GameClient) : GameClient :=
  map_fold (λ id p acc, ensureRenderState id (pos_x p) (pos_y p) acc) c ps.

(** Images are represented by their [src]. *)
Definition loadAvatarImage (av : avatar) (c : GameClient) : GameClient :=
  match loadedImages c !! av_name av with
  | Some _ => c
  | None => set_loadedImages (<[av_name av := av_frames av]> (loadedImages c)) c
  end.

Definition loadAvatarImages (c : GameClient) : GameClient :=
  map_fold (λ _ av acc, loadAvatarImage av acc) c (avatars c).

(** The property names a plain object inherits from [Object.prototype].
    A read [this.players[k]] finds the own property [k] when there is one;
    failing that, for these names it finds the inherited function or
    accessor (which is truthy and is not a player record), and [undefined]
    for every other name.  The registry of the model holds the own
    properties of an object whose prototype is [Object.prototype]. *)
Definition inherited_keys : list string :=
  [ "constructor"; "hasOwnProperty"; "isPrototypeOf";
    "propertyIsEnumerable"; "toLocaleString"; "toString"; "valueOf";
    "__proto__"; "__defineGetter__"; "__defineSetter__";
    "__lookupGetter__"; "__lookupSetter__" ].

(** The guard [!this.myPlayerId || !this.players[this.myPlayerId]]: the local
    identifier (a non-empty string) together with its own record in the
    registry, when both are there.  (In the source an identifier of
    [inherited_keys] without an own record passes the guard as well, on the
    inherited property.) *)
Definition my_player (c : GameClient) : option (string * player) :=
  match myPlayerId c with
  | Some id =>
      if String.eqb id "" then None
      else match players c !! id with
           | Some p => Some (id, p)
           | None => None
           end
  | None => None
  end.

(** [Math.max(0, Math.min(v, world - canvas))] *)
Definition clamp_offset (v world canvas : Q) : Q :=
  Qmax 0 (Qmin v (world - canvas)).

Definition centerViewportOnPlayer (c : GameClient) : GameClient :=
  match my_player c with
  | None => c
  | Some (id, myPlayer) =>
      let myRender := playerRenderState c !! id in
      let focusX := match myRender with
                    | Some r => renderX r | None => pos_x myPlayer end in
      let focusY := match myRender with
                    | Some r => renderY r | None => pos_y myPlayer end in
      let centerX := (canvasWidth c / 2)%Q in
      let centerY := (canvasHeight c / 2)%Q in
      set_viewport
        (clamp_offset (focusX - centerX) (worldWidth c) (canvasWidth c))
        (clamp_offset (focusY - centerY) (worldHeight c) (canvasHeight c)) c
  end.

Definition handleServerMessage (m : message) (c : GameClient) : GameClient :=
  match m with
  | JoinGameSuccess playerId ps avs =>
      let c1 := set_myPlayerId (Some playerId) c in
      let c2 := set_players ps c1 in
      let c3 := set_avatars avs c2 in
      let c4 := loadAvatarImages c3 in
      let c5 := ensureRenderStates (players c4) c4 in
      centerViewportOnPlayer c5
  | JoinGameFailure _ => c
  | PlayerJoined id p av =>
      let c1 := set_players (<[id := p]> (players c)) c in
      let c2 := set_avatars (<[av_name av := av]> (avatars c1)) c1 in
      let c3 := loadAvatarImage av c2 in
      ensureRenderState id (pos_x p) (pos_y p) c3
  | PlayersMoved ps =>
      (* Object.assign(this.players, message.players) *)
      let c1 := set_players (ps ∪ players c) c in
      ensureRenderStates ps c1
  | PlayerLeft playerId =>
      let c1 := set_players (delete playerId (players c)) c in
      set_playerRenderState (delete playerId (playerRenderState c1)) c1
  | UnknownAction _ => c
  end.

(** ** Render-State Interpolator and Frame Driver *)

(** [while (st.animMs >= d) { st.animMs -= d; st.frameIndex = (st.frameIndex + 1) % 3; }]
    with [fuel] bounding the number of iterations. *)
Fixpoint advance_frames (fuel : nat) (a : Q) (f : Z) : Q * Z :=
  match fuel with
  | O => (a, f)
  | S n =>
      if Qle_bool animationFrameDurationMs a
      then advance_frames n (a - animationFrameDurationMs) (Z.rem (f + 1) 3)
      else (a, f)
  end.

(** Enough iterations for the loop to leave through its test. *)
Definition frames_fuel (a : Q) : nat :=
  S (Z.to_nat (Qfloor (a / animationFrameDurationMs))).

Definition smoothing_factor (dt : Q) : Q :=
  Qmin 1 (dt * positionSmoothingPerSecond).

(** The body of the loop of [render] once [st] has been fetched. *)
Definition advance_render_state (dtMs : Q) (p : player)
    (st : render_state) : render_state :=
  let dt := (dtMs / 1000)%Q in
  let t := smoothing_factor dt in
  let rx := (renderX st + (pos_x p - renderX st) * t)%Q in
  let ry := (renderY st + (pos_y p - renderY st) * t)%Q in
  if truthy (fields p !! "isMoving") then
    let a := (animMs st + dtMs)%Q in
    let '(a', f') := advance_frames (frames_fuel a) a (frameIndex st) in
    {| renderX := rx; renderY := ry; animMs := a'; frameIndex := f' |}
  else
    {| renderX := rx; renderY := ry; animMs := 0; frameIndex := 0 |}.

Definition render_player (dtMs : Q) (playerId : string) (p : player)
    (c : GameClient) : GameClient :=
  let c1 := ensureRenderState playerId (pos_x p) (pos_y p) c in
  match playerRenderState c1 !! playerId with
  | Some st =>
      set_playerRenderState
        (<[playerId := advance_render_state dtMs p st]> (playerRenderState c1)) c1
  | None => c1
  end.

Definition advance_jump (dtMs : Q) (j : jump_state) : jump_state :=
  if isJumping j then
    let e := (elapsedMs j + dtMs)%Q in
    if Qle_bool (durationMs j) e
    then {| isJumping := false; elapsedMs := 0;
            durationMs := durationMs j; peakOffsetPx := peakOffsetPx j |}
    else {| isJumping := true; elapsedMs := e;
            durationMs := durationMs j; peakOffsetPx := peakOffsetPx j |}
  else j.

(** [render()], with [now] the value of [performance.now()]; the draw calls
    read the state and do not change it. *)
Definition render (now : Q) (c : GameClient) : GameClient :=
  let dtMs := Qmax 0 (now - lastFrameTimeMs c) in
  let c1 := set_lastFrameTimeMs now c in
  let c2 := map_fold (render_player dtMs) c1 (players c1) in
  let c3 := centerViewportOnPlayer c2 in
  set_jumpState (advance_jump dtMs (jumpState c3)) c3.

Definition triggerJump (c : GameClient) : GameClient :=
  if isJumping (jumpState c) then c
  else set_jumpState {| isJumping := true; elapsedMs := 0;
                        durationMs := durationMs (jumpState c);
                        peakOffsetPx := peakOffsetPx (jumpState c) |} c.

(** ** The frame arithmetic in binary64

    [render] computes on IEEE 754 doubles.  Where rounding decides what the
    code does (the smoothing step of lines 410-412 and the animation loop of
    lines 414-419) the arithmetic is also given on binary64 values, operation
    by operation as the source writes it. *)









(** ** Input Intent Tracker *)

Record key_event : Type := KeyEvent { key : string; code : string }.

Definition directionForKey (k : string) : option string :=
  if String.eqb k "ArrowUp" then Some "up"
  else if String.eqb k "ArrowDown" then Some "down"
  else if String.eqb k "ArrowLeft" then Some "left"
  else if String.eqb k "ArrowRight" then Some "right"
  else None.

Definition sendMove (direction : string) (c : GameClient) : list wire :=
  if wsOpen c then [WMove direction] else [].

Definition sendStop (c : GameClient) : list wire :=
  if wsOpen c then [WStop] else [].

Definition setMyLocalMovement (direction : option string) (isMoving : bool)
    (c : GameClient) : GameClient :=
  match my_player c with
  | None => c
  | Some (id, me) =>
      let me1 := match direction with
                 | Some d => if String.eqb d "" then me
                             else set_field "facing" (JStr d) me
                 | None => me
                 end in
      let me2 := set_field "isMoving" (JBool isMoving) me1 in
      set_players (<[id := me2]> (players c)) c
  end.

Definition onKeyDown (e : key_event) (c : GameClient) : GameClient * list wire :=
  if String.eqb (key e) " " || String.eqb (code e) "Space" then (triggerJump c, [])
  else
    match directionForKey (key e) with
    | None => (c, [])
    | Some direction =>
        let c1 := if decide (direction ∈ pressedDirections c) then c
                  else set_held ({[direction]} ∪ pressedDirections c)
                                (direction :: heldOrder c) c in
        (setMyLocalMovement (Some direction) true c1, sendMove direction c1)
    end.

Definition onKeyUp (e : key_event) (c : GameClient) : GameClient * list wire :=
  match directionForKey (key e) with
  | None => (c, [])
  | Some direction =>
      let c1 := if decide (direction ∈ pressedDirections c)
                then set_held (pressedDirections c ∖ {[direction]})
                       (filter (λ d, d ≠ direction) (heldOrder c)) c
                else c in
      if decide (size (pressedDirections c1) = 0%nat) then
        (setMyLocalMovement None false c1, sendStop c1)
      else
        match heldOrder c1 with
        | nextDir :: _ =>
            if String.eqb nextDir "" then (c1, [])
            else (setMyLocalMovement (Some nextDir) true c1, sendMove nextDir c1)
        | [] => (c1, [])
        end
  end.

Definition onBlur (c : GameClient) : GameClient * list wire :=
  if decide (size (pressedDirections c) = 0%nat) then (c, [])
  else
    let c1 := set_held ∅ [] c in
    (setMyLocalMovement None false c1, sendStop c1).

(** ** The event loop

    Every handler runs to completion; the client state evolves by one
    [handle] per event. *)
Inductive event : Type :=
| Inbound (m : message)
| Frame (now : Q)
| KeyDown (e : key_event)
| KeyUp (e : key_event)
| Blur
| Resize (w h : Q)
| SocketOpen
| SocketClose.

Definition handle (ev : event) (c : GameClient) : GameClient * list wire :=
  match ev with
  | Inbound m => (handleServerMessage m c, [])
  | Frame now => (render now c, [])
  | KeyDown e => onKeyDown e c
  | KeyUp e => onKeyUp e c
  | Blur => onBlur c
  | Resize w h => (set_canvas w h c, [])
  | SocketOpen => (set_wsOpen true c, [WJoin "brittC"])
  | SocketClose => (set_wsOpen false c, [])
  end.

(** Running a list of events, oldest first; the sent messages are collected
    in order. *)
Fixpoint run (evs : list event) (c : GameClient) : GameClient * list wire :=
  match evs with
  | [] => (c, [])
  | ev :: rest =>
      let '(c1, out1) := handle ev c in
      let '(c2, out2) := run rest c1 in
      (c2, (out1 ++ out2)%list)
  end.

Inductive reachable : GameClient → Prop :=
| reachable_initial w h now : reachable (initial w h now)
| reachable_step ev c : reachable c → reachable (fst (handle ev c)).

(** * Vocabulary of the properties

    Predicates, reference notions and the concrete sessions the statements
    below are evaluated on. *)

(** ** Render states *)

(** The entry [ensureRenderState] creates for a record. *)
Definition seed_of (p : player) : render_state := seeded (pos_x p) (pos_y p).

(** What one frame does to the entry of one identifier: [po] is the registry
    record, [ro] the entry before the frame. *)
Definition tick_entry (dtMs : Q) (po : option player)
    (ro : option render_state) : option render_state :=
  match po with
  | Some p => Some (advance_render_state dtMs p (default (seed_of p) ro))
  | None => ro
  end.

(** The two collections name the same identifiers. *)
Definition lockstep (c : GameClient) : Prop :=
  ∀ id, is_Some (playerRenderState c !! id) ↔ is_Some (players c !! id).


(** ** Concrete sessions

    Two players, and clients obtained from start-up (window 800 x 600, clock
    at 0) by a few messages and frames. *)
Definition ann : player :=
  Player 100 100 {[ "username" := JStr "ann"; "avatar" := JStr "knight";
                    "facing" := JStr "south"; "isMoving" := JBool false ]}.
Definition bob : player :=
  Player 5 7 {[ "username" := JStr "bob"; "avatar" := JStr "mage";
                "facing" := JStr "south"; "isMoving" := JBool false ]}.

(** "a" joins alone; then a second accepted join arrives that lists only
    "b". *)
Definition joined_once : GameClient :=
  handleServerMessage (JoinGameSuccess "a" {[ "a" := ann ]} ∅)
    (initial 800 600 0).

Definition joined_twice : GameClient :=
  handleServerMessage (JoinGameSuccess "b" {[ "b" := bob ]} ∅) joined_once.

(** A batch that moves "a" and carries only its facing and movement flag. *)
Definition move_a : gmap string player :=
  {[ "a" := Player 200 100 {[ "facing" := JStr "east";
                              "isMoving" := JBool true ]} ]}.

Definition after_move_a : GameClient :=
  handleServerMessage (PlayersMoved move_a) joined_once.


(** "a" after the batch [move_a] and a frame 50 ms later: half way, with
    50 ms on its accumulator. *)
Definition half_way : GameClient := render 50 after_move_a.

Local Open Scope Q_scope.

(** Integer constants met under [inject_Z]. *)
Ltac inj_consts :=
  change (inject_Z 0) with 0%Q in *; change (inject_Z 1) with 1%Q in *.

(** ** Animation and smoothing *)

(** [p.isMoving], as the [if] of [render] reads it. *)
Definition moving (p : player) : bool := truthy (fields p !! "isMoving").

(** What every entry of [playerRenderState] satisfies between handlers. *)
Definition entry_ok (st : render_state) : Prop :=
  0 <= animMs st ∧ animMs st < animationFrameDurationMs ∧
  (0 <= frameIndex st <= 2)%Z.

Definition entries_ok (c : GameClient) : Prop :=
  ∀ id st, playerRenderState c !! id = Some st → entry_ok st.

(** A session: join as "a", a batch sets "a" moving towards (200,100), and
    a frame comes one second after start-up. *)
Definition one_second_later : GameClient :=
  fst (run [Inbound (JoinGameSuccess "a" {[ "a" := ann ]} ∅);
            Inbound (PlayersMoved move_a);
            Frame 1000] (initial 800 600 0)).

(** "a" after the batch [move_a], 50 ms on its accumulator, is told to stop. *)
Definition stopped : GameClient :=
  handleServerMessage
    (PlayersMoved {[ "a" := Player 200 100 {[ "isMoving" := JBool false ]} ]})
    half_way.

(** Several frames in a row. *)
Definition frames (nows : list Q) (c : GameClient) : GameClient :=
  foldl (λ acc now, render now acc) c nows.

Local Close Scope Q_scope.

(** ** Input tracker *)

(** Press times, a reference notion of "most recently pressed" that does not
    look at [heldOrder]: for each direction currently held, the position in
    the event sequence of the key-down that started the hold.  [t] is the
    position of the event being processed. *)
Definition press_time_step (t : nat) (ev : event)
    (held : gmap string nat) : gmap string nat :=
  match ev with
  | KeyDown e =>
      if String.eqb (key e) " " || String.eqb (code e) "Space" then held
      else match directionForKey (key e) with
           | Some d => match held !! d with
                       | Some _ => held
                       | None => <[d := t]> held
                       end
           | None => held
           end
  | KeyUp e =>
      match directionForKey (key e) with
      | Some d => delete d held
      | None => held
      end
  | Blur => ∅
  | _ => held
  end.


(** [d1] was pressed after [d2]. *)
Definition newer (g : gmap string nat) (d1 d2 : string) : Prop :=
  ∃ t1 t2, g !! d1 = Some t1 ∧ g !! d2 = Some t2 ∧ (t2 < t1)%nat.

Fixpoint newest_first (g : gmap string nat) (l : list string) : Prop :=
  match l with
  | [] => True
  | d :: rest => (∀ d', d' ∈ rest → newer g d d') ∧ newest_first g rest
  end.

(** The tracker's state agrees with the press times [g]; [t] bounds them. *)
Record tracker_inv (c : GameClient) (g : gmap string nat) (t : nat) : Prop := {
  inv_pressed : ∀ d, d ∈ pressedDirections c ↔ is_Some (g !! d);
  inv_held : ∀ d, d ∈ heldOrder c ↔ is_Some (g !! d);
  inv_order : newest_first g (heldOrder c);
  inv_bound : ∀ d s, g !! d = Some s → (s < t)%nat;
  inv_nonempty : ∀ d, d ∈ heldOrder c → d ≠ ""
}.

(** The state in which [onKeyUp] decides what to send. *)
Definition released (d : string) (c : GameClient) : GameClient :=
  if decide (d ∈ pressedDirections c)
  then set_held (pressedDirections c ∖ {[d]})
         (filter (λ x, x ≠ d) (heldOrder c)) c
  else c.

(** The socket opens, "a" joins, then up, left and down are pressed in that
    order and all stay held. *)
Definition three_held : list event :=
  [SocketOpen;
   Inbound (JoinGameSuccess "a" {[ "a" := ann ]} ∅);
   KeyDown (KeyEvent "ArrowUp" "ArrowUp");
   KeyDown (KeyEvent "ArrowLeft" "ArrowLeft");
   KeyDown (KeyEvent "ArrowDown" "ArrowDown")].

(** * The rest of the client: vocabulary *)

(** The four direction tokens [directionForKey] can return. *)
Definition directions : list string := ["up"; "down"; "left"; "right"].

(** Messages the client is meant to put on the wire: the join with the
    hard-coded user name, a stop, or a move with a direction token. *)
Definition wire_ok (m : wire) : Prop :=
  match m with
  | WJoin u => u = "brittC"
  | WStop => True
  | WMove d => d ∈ directions
  end.

(** [worldToScreen(worldX, worldY)] *)
Definition worldToScreen (worldX worldY : Q) (c : GameClient) : Q * Q :=
  ((worldX - viewportX c)%Q, (worldY - viewportY c)%Q).

(** What the jump gesture satisfies between handlers. *)
Definition jump_ok (j : jump_state) : Prop :=
  durationMs j = 400%Q ∧ peakOffsetPx j = 12%Q ∧
  if isJumping j then (0 <= elapsedMs j)%Q ∧ (elapsedMs j < 400)%Q
  else elapsedMs j = 0%Q.

(** Events that come from the keyboard or the window focus. *)
Definition is_input (ev : event) : bool :=
  match ev with
  | KeyDown _ | KeyUp _ | Blur => true
  | _ => false
  end.

(** A space bar event. *)
Definition space : key_event := KeyEvent " " "Space".

(** The recency list holds direction tokens only. *)
Definition held_valid (c : GameClient) : Prop :=
  ∀ d, d ∈ heldOrder c → d ∈ directions.

(** Up and left held, socket open, "a" joined. *)
Definition two_held : GameClient :=
  fst (run [SocketOpen;
            Inbound (JoinGameSuccess "a" {[ "a" := ann ]} ∅);
            KeyDown (KeyEvent "ArrowUp" "ArrowUp");
            KeyDown (KeyEvent "ArrowLeft" "ArrowLeft")] (initial 800 600 0)).

(** "a" has joined and the space bar has just been pressed. *)
Definition jumping : GameClient :=
  fst (run [Inbound (JoinGameSuccess "a" {[ "a" := ann ]} ∅); KeyDown space]
         (initial 800 600 0)).

(** Two avatars, and a client that has joined with both in its table. *)
Definition knight : avatar :=
  Avatar "knight" {[ "south" := ["k0"; "k1"; "k2"];
                     "east" := ["e0"; "e1"; "e2"] ]}.
Definition mage : avatar :=
  Avatar "mage" {[ "south" := ["m0"; "m1"; "m2"];
                   "west" := ["w0"; "w1"; "w2"] ]}.

Definition joined_with_avatars : GameClient :=
  handleServerMessage
    (JoinGameSuccess "a" {[ "a" := ann; "b" := bob ]}
       {[ "knight" := knight; "mage" := mage ]})
    (initial 800 600 0).


(** The camera offset is not negative and the world is 2048 x 2048. *)
Definition camera_ok (c : GameClient) : Prop :=
  (0 <= viewportX c)%Q ∧ (0 <= viewportY c)%Q ∧
  worldWidth c = 2048%Q ∧ worldHeight c = 2048%Q.

(** "a" alone at (1000,900), in a window of 800 x 600. *)
Definition mid_world : GameClient :=
  handleServerMessage (JoinGameSuccess "a" {[ "a" := Player 1000 900 ∅ ]} ∅)
    (initial 800 600 0).

(** * Drawing

    The draw pass reads the client state and issues canvas calls; the calls
    are collected in a list.  Style assignments ([font], [fillStyle], ...)
    are not recorded.  Three behaviours of the JavaScript runtime are taken
    as parameters: the string a number converts to when used as a property
    key, the array index a value denotes when used as a subscript, and
    [t ↦ Math.sin(t * Math.PI)]. *)

Inductive draw_cmd : Type :=
| Save
| Restore
| Scale (sx sy : Q)
| DrawImage (img : string) (x y w h : Q)
| StrokeText (text : option jsval) (x y : Q)
| FillText (text : option jsval) (x y : Q).

Definition avatarSize : Q := 32.

(** [a < b] on numbers. *)
Definition Qltb (a b : Q) : bool := negb (Qle_bool b a).

(** [direction === 'west'] *)
Definition is_west (direction : option jsval) : bool :=
  match direction with
  | Some (JStr s) => String.eqb s "west"
  | _ => false
  end.

(** A value used as a key of a [Map] whose keys are all strings: only a
    string can be found. *)
Definition mapKey (v : option jsval) : option string :=
  match v with
  | Some (JStr s) => Some s
  | _ => None
  end.

Section Drawing.

Variable numberToString : Q → string.
Variable arrayIndex : jsval → option nat.
Variable sinPi : Q → Q.

(** A value used as a property key of a plain object. *)
Definition propertyKey (v : option jsval) : string :=
  match v with
  | None => "undefined"
  | Some JNull => "null"
  | Some (JBool true) => "true"
  | Some (JBool false) => "false"
  | Some (JNum q) => numberToString q
  | Some (JStr s) => s
  end.

(** [state ? state.frameIndex : (player.animationFrame || 0)], as the
    position it denotes in the array of frames. *)
Definition frameSubscript (p : player) (state : option render_state)
    : option nat :=
  match state with
  | Some st =>
      if (0 <=? frameIndex st)%Z then Some (Z.to_nat (frameIndex st))
      else None
  | None =>
      match fields p !! "animationFrame" with
      | Some v => if truthy (Some v) then arrayIndex v else Some 0%nat
      | None => Some 0%nat
      end
  end.

Definition drawAvatar (p : player) (screenPos : Q * Q)
    (state : option render_state) (c : GameClient) : list draw_cmd :=
  match avatars c !! propertyKey (fields p !! "avatar"),
        mapKey (fields p !! "avatar") ≫= (λ k, loadedImages c !! k) with
  | Some _, Some frames =>
      let direction := fields p !! "facing" in
      let framesToUse :=
        match frames !! propertyKey direction with
        | Some l => Some l
        | None => if is_west direction then frames !! "east" else None
        end in
      match framesToUse with
      | Some l =>
          match frameSubscript p state ≫= (λ i, l !! i) with
          | Some avatarImg =>
              let avatarX := (fst screenPos - avatarSize / 2)%Q in
              let avatarY := (snd screenPos - avatarSize)%Q in
              if is_west direction then
                [Save; Scale (-(1)) 1;
                 DrawImage avatarImg (- avatarX - avatarSize)%Q avatarY
                   avatarSize avatarSize;
                 Restore]
              else
                [Save;
                 DrawImage avatarImg avatarX avatarY avatarSize avatarSize;
                 Restore]
          | None => []
          end
      | None => []
      end
  | _, _ => []
  end.


(** Where [drawAvatars] puts a player on the screen. *)
Definition screenPosition (playerId : string) (p : player)
    (c : GameClient) : Q * Q :=
  let state := playerRenderState c !! playerId in
  let posX := match state with Some st => renderX st | None => pos_x p end in
  let posY := match state with Some st => renderY st | None => pos_y p end in
  let screenPos := worldToScreen posX posY c in
  if bool_decide (myPlayerId c = Some playerId) && isJumping (jumpState c)
  then
    let jumpT := Qmin 1 (elapsedMs (jumpState c) / durationMs (jumpState c)) in
    let sine := sinPi jumpT in
    let offset := (sine * peakOffsetPx (jumpState c))%Q in
    (fst screenPos, (snd screenPos - offset)%Q)
  else screenPos.

(** The visibility test of [drawAvatars]. *)
Definition onScreen (screenPos : Q * Q) (c : GameClient) : bool :=
  Qltb (- avatarSize) (fst screenPos)
  && Qltb (fst screenPos) (canvasWidth c + avatarSize)
  && Qltb (- avatarSize) (snd screenPos)
  && Qltb (snd screenPos) (canvasHeight c + avatarSize).


End Drawing.

(** "b" faces west with the mage's west frames, "c" faces west with the
    knight's east frames only, "d" has an avatar nobody registered. *)
Definition gallery : GameClient :=
  handleServerMessage
    (JoinGameSuccess "a"
       {[ "a" := ann;
          "b" := Player 120 100 {[ "username" := JStr "bob";
                                   "avatar" := JStr "mage";
                                   "facing" := JStr "west" ]};
          "c" := Player 140 100 {[ "username" := JStr "cat";
                                   "avatar" := JStr "knight";
                                   "facing" := JStr "west" ]};
          "d" := Player 160 100 {[ "username" := JStr "dan";
                                   "avatar" := JStr "ghost";
                                   "facing" := JStr "south" ]} ]}
       {[ "knight" := knight; "mage" := mage ]})
    (initial 800 600 0).

(** ** Binary64 values *)








(** ** Ordinary identifiers *)

(** A message whose identifiers stay clear of [inherited_keys]: an accepted
    join does not name one as the local identifier, and no record is
    written under one (writing under [__proto__] would replace the prototype
    of the registry instead of adding an entry). *)
Definition plain_message (m : message) : Prop :=
  match m with
  | JoinGameSuccess pid _ _ => pid ∉ inherited_keys
  | PlayerJoined id _ _ => id ∉ inherited_keys
  | PlayersMoved ps => ∀ k, k ∈ inherited_keys → ps !! k = None
  | _ => True
  end.

Definition plain_event (ev : event) : Prop :=
  match ev with
  | Inbound m => plain_message m
  | _ => True
  end.

(** The local identifier, when set, is not an inherited name. *)
Definition plain_me (c : GameClient) : Prop :=
  ∀ id, myPlayerId c = Some id → id ∉ inherited_keys.

(** * Properties *)

(** ** The loops over the registry, in closed form *)

Lemma set_playerRenderState_id c :
  set_playerRenderState (playerRenderState c) c = c.
Proof. by destruct c. Qed.

Lemma set_loadedImages_id c : set_loadedImages (loadedImages c) c = c.
Proof. by destruct c. Qed.

(** Seeding a batch keeps every entry already there and adds a seeded entry
    for the identifiers that had none. *)
Lemma ensureRenderStates_spec ps c :
  ensureRenderStates ps c =
  set_playerRenderState (playerRenderState c ∪ (seed_of <$> ps)) c.
Proof.
  unfold ensureRenderStates.
  apply (map_fold_weak_ind (λ r m,
    r = set_playerRenderState (playerRenderState c ∪ (seed_of <$> m)) c)).
  - rewrite fmap_empty, (right_id_L ∅ (∪)). by rewrite set_playerRenderState_id.
  - intros i x m r Hi ->. unfold ensureRenderState; simpl.
    rewrite lookup_union, lookup_fmap, Hi; simpl.
    rewrite fmap_insert.
    destruct (playerRenderState c !! i) as [st|] eqn:E; simpl.
    + f_equal. apply map_eq; intros j. rewrite !lookup_union.
      destruct (decide (i = j)) as [<-|Hne].
      * by rewrite lookup_insert_eq, lookup_fmap, Hi, E.
      * by rewrite lookup_insert_ne.
    + unfold set_playerRenderState; simpl. f_equal.
      by rewrite insert_union_r.
Qed.

Lemma loadAvatarImage_spec av c :
  ∃ li, loadAvatarImage av c = set_loadedImages li c.
Proof.
  unfold loadAvatarImage. destruct (loadedImages c !! av_name av).
  - exists (loadedImages c). by rewrite set_loadedImages_id.
  - eauto.
Qed.

Lemma loadAvatarImages_spec c :
  ∃ li, loadAvatarImages c = set_loadedImages li c.
Proof.
  unfold loadAvatarImages.
  apply (map_fold_weak_ind (λ r (_ : gmap string avatar),
    ∃ li, r = set_loadedImages li c)).
  - exists (loadedImages c). by rewrite set_loadedImages_id.
  - intros i av m r _ [li ->].
    destruct (loadAvatarImage_spec av (set_loadedImages li c)) as [li' ->].
    by exists li'.
Qed.

Lemma render_players_spec dtMs ps c :
  map_fold (render_player dtMs) c ps =
  set_playerRenderState (merge (tick_entry dtMs) ps (playerRenderState c)) c.
Proof.
  apply (map_fold_weak_ind (λ r m,
    r = set_playerRenderState
          (merge (tick_entry dtMs) m (playerRenderState c)) c)).
  - replace (merge (tick_entry dtMs) ∅ (playerRenderState c))
      with (playerRenderState c); [by rewrite set_playerRenderState_id|].
    apply map_eq; intros j. rewrite lookup_merge, lookup_empty.
    by destruct (playerRenderState c !! j).
  - intros i p m r Hi ->.
    unfold render_player, ensureRenderState; simpl.
    rewrite lookup_merge, Hi.
    assert (Hm : ∀ st0 : render_state,
      <[i := advance_render_state dtMs p st0]>
        (<[i := st0]> (merge (tick_entry dtMs) m (playerRenderState c))) =
      <[i := advance_render_state dtMs p st0]>
        (merge (tick_entry dtMs) m (playerRenderState c)))
      by (intros; apply insert_insert_eq).
    destruct (playerRenderState c !! i) as [st|] eqn:E; simpl.
    + rewrite lookup_merge, Hi, E; simpl.
      unfold set_playerRenderState; simpl. f_equal.
      apply map_eq; intros j. rewrite lookup_merge.
      destruct (decide (i = j)) as [<-|Hne].
      * by rewrite !lookup_insert_eq, E.
      * by rewrite !lookup_insert_ne, lookup_merge.
    + rewrite lookup_insert_eq.
      unfold set_playerRenderState; simpl. f_equal. rewrite Hm.
      apply map_eq; intros j. rewrite lookup_merge.
      destruct (decide (i = j)) as [<-|Hne].
      * by rewrite !lookup_insert_eq, E.
      * by rewrite !lookup_insert_ne, lookup_merge.
Qed.

(** The camera and the jump gesture leave the registry and the render
    states alone. *)
Lemma centerViewportOnPlayer_frame c :
  players (centerViewportOnPlayer c) = players c ∧
  playerRenderState (centerViewportOnPlayer c) = playerRenderState c ∧
  myPlayerId (centerViewportOnPlayer c) = myPlayerId c ∧
  lastFrameTimeMs (centerViewportOnPlayer c) = lastFrameTimeMs c ∧
  pressedDirections (centerViewportOnPlayer c) = pressedDirections c ∧
  heldOrder (centerViewportOnPlayer c) = heldOrder c.
Proof.
  unfold centerViewportOnPlayer. by destruct (my_player c) as [[id me]|].
Qed.


Lemma render_lastFrameTimeMs now c : lastFrameTimeMs (render now c) = now.
Proof.
  unfold render; simpl.
  destruct (centerViewportOnPlayer_frame
    (map_fold (render_player (Qmax 0 (now - lastFrameTimeMs c)))
       (set_lastFrameTimeMs now c) (players c))) as (_ & _ & _ & -> & _).
  by rewrite render_players_spec.
Qed.

(** One frame, entry by entry. *)
Lemma render_lookup now c id :
  playerRenderState (render now c) !! id =
  tick_entry (Qmax 0 (now - lastFrameTimeMs c))
    (players c !! id) (playerRenderState c !! id).
Proof.
  unfold render; simpl.
  destruct (centerViewportOnPlayer_frame
    (map_fold (render_player (Qmax 0 (now - lastFrameTimeMs c)))
       (set_lastFrameTimeMs now c) (players c))) as (_ & -> & _).
  rewrite render_players_spec; simpl. rewrite lookup_merge.
  destruct (players c !! id), (playerRenderState c !! id); done.
Qed.

(** The reconciler, message by message, on the two collections. *)
Lemma handle_join_players playerId ps avs c :
  players (handleServerMessage (JoinGameSuccess playerId ps avs) c) = ps.
Proof.
  simpl.
  match goal with |- players (centerViewportOnPlayer ?s) = _ =>
    destruct (centerViewportOnPlayer_frame s) as (-> & _) end.
  rewrite ensureRenderStates_spec; simpl.
  destruct (loadAvatarImages_spec
    (set_avatars avs (set_players ps (set_myPlayerId (Some playerId) c))))
    as [li ->]. done.
Qed.

Lemma handle_join_renderState playerId ps avs c :
  playerRenderState (handleServerMessage (JoinGameSuccess playerId ps avs) c) =
  playerRenderState c ∪ (seed_of <$> ps).
Proof.
  simpl.
  match goal with |- playerRenderState (centerViewportOnPlayer ?s) = _ =>
    destruct (centerViewportOnPlayer_frame s) as (_ & -> & _) end.
  rewrite ensureRenderStates_spec; simpl.
  destruct (loadAvatarImages_spec
    (set_avatars avs (set_players ps (set_myPlayerId (Some playerId) c))))
    as [li ->]. done.
Qed.

Lemma handle_joined_renderState id p av c :
  playerRenderState (handleServerMessage (PlayerJoined id p av) c) =
  match playerRenderState c !! id with
  | Some _ => playerRenderState c
  | None => <[id := seed_of p]> (playerRenderState c)
  end.
Proof.
  simpl. unfold ensureRenderState.
  destruct (loadAvatarImage_spec av
    (set_avatars (<[av_name av := av]> (avatars c))
       (set_players (<[id := p]> (players c)) c))) as [li ->]; simpl.
  by destruct (playerRenderState c !! id).
Qed.



Lemma handle_moved_renderState ps c :
  playerRenderState (handleServerMessage (PlayersMoved ps) c) =
  playerRenderState c ∪ (seed_of <$> ps).
Proof. simpl. by rewrite ensureRenderStates_spec. Qed.

(** ** Registry and render states in lockstep *)

Lemma lockstep_initial w h now : lockstep (initial w h now).
Proof. intros id; simpl. by rewrite !lookup_empty. Qed.




(** A join into a client that holds no render state of departed players
    (in particular the first join) gives lockstep. *)
Lemma lockstep_join_fresh playerId ps avs c :
  (∀ id, is_Some (playerRenderState c !! id) → is_Some (ps !! id)) →
  lockstep (handleServerMessage (JoinGameSuccess playerId ps avs) c).
Proof.
  intros Hsub j. rewrite handle_join_players, handle_join_renderState.
  specialize (Hsub j). rewrite lookup_union, lookup_fmap.
  destruct (playerRenderState c !! j), (ps !! j); simpl;
    split; intros [? ?]; try done; eauto.
Qed.


(** C1 (code defect).  The join handler replaces the registry wholesale but
    leaves [playerRenderState] as it was: after a second accepted join that
    no longer lists player "a", the registry has no "a" while its render
    state is still there, although lockstep held before the message. *)
Theorem join_keeps_stale_render_state :
  lockstep joined_once ∧
  players joined_twice !! "a" = None ∧
  playerRenderState joined_twice !! "a" = Some (seeded 100 100) ∧
  ¬ lockstep joined_twice.
Proof.
  assert (H1 : players joined_twice !! "a" = None) by (vm_compute; done).
  assert (H2 : playerRenderState joined_twice !! "a" = Some (seeded 100 100))
    by (vm_compute; done).
  split; [|split; [done|split; [done|]]].
  - apply lockstep_join_fresh. intros id; simpl. rewrite lookup_empty.
    by intros [? ?].
  - intros L. destruct (proj1 (L "a")) as [? ?]; [by rewrite H2|congruence].
Qed.

(** ** Batch updates *)




(** ** Rejected joins and unknown messages *)

(** C8.  A rejected join and a message of unknown kind leave the whole
    client state as it was: the registry, the render states, the local
    identifier and the camera offset in particular. *)
Theorem rejected_or_unknown_changes_nothing (c : GameClient)
    (error action : string) :
  let c1 := handleServerMessage (JoinGameFailure error) c in
  let c2 := handleServerMessage (UnknownAction action) c in
  (c1 = c ∧ c2 = c) ∧
  (players c1 = players c ∧ playerRenderState c1 = playerRenderState c ∧
   myPlayerId c1 = myPlayerId c ∧
   viewportX c1 = viewportX c ∧ viewportY c1 = viewportY c) ∧
  (players c2 = players c ∧ playerRenderState c2 = playerRenderState c ∧
   myPlayerId c2 = myPlayerId c ∧
   viewportX c2 = viewportX c ∧ viewportY c2 = viewportY c).
Proof. simpl. repeat split. Qed.

(** ** Creating a render state twice *)

(** C10.  [ensureRenderState] on an identifier that already has an entry
    changes nothing; so a batch update that names the identifier keeps the
    entry, and a frame advances the entry from where it was rather than from
    a fresh seed. *)
Theorem ensureRenderState_keeps_existing (c : GameClient) (id : string)
    (st : render_state) :
  playerRenderState c !! id = Some st →
  (∀ x y, ensureRenderState id x y c = c) ∧
  (∀ ps, playerRenderState (ensureRenderStates ps c) !! id = Some st) ∧
  (∀ ps, playerRenderState (handleServerMessage (PlayersMoved ps) c) !! id
         = Some st) ∧
  (∀ now p, players c !! id = Some p →
     playerRenderState (render now c) !! id =
     Some (advance_render_state (Qmax 0 (now - lastFrameTimeMs c)) p st)).
Proof.
  intros H. repeat split.
  - intros x y. unfold ensureRenderState. by rewrite H.
  - intros ps. rewrite ensureRenderStates_spec; simpl.
    by rewrite lookup_union, H, lookup_fmap; destruct (ps !! id).
  - intros ps. rewrite handle_moved_renderState.
    by rewrite lookup_union, H, lookup_fmap; destruct (ps !! id).
  - intros now p Hp. by rewrite render_lookup, Hp, H.
Qed.

(** "a" half way: neither a repeated [ensureRenderState] nor a repeated
    batch touches its entry. *)
Lemma ensureRenderState_keeps_existing_witness :
  ensureRenderState "a" 200 100 half_way = half_way ∧
  playerRenderState (handleServerMessage (PlayersMoved move_a) half_way) !! "a"
  = playerRenderState half_way !! "a".
Proof.
  assert (H : playerRenderState half_way !! "a" =
              Some (RenderState (150000 # 1000) (100000 # 1000) 50 0))
    by (vm_compute; reflexivity).
  destruct (ensureRenderState_keeps_existing half_way "a" _ H)
    as (H1 & _ & H3 & _).
  split; [apply H1 | rewrite H; apply H3].
Defined.

(** ** Animation *)

Local Open Scope Q_scope.

Lemma inject_Z_pred (z : Z) : inject_Z (z - 1) == inject_Z z - 1.
Proof.
  replace (z - 1)%Z with (z + -1)%Z by lia. rewrite inject_Z_plus.
  change (inject_Z (-1)) with (-(1))%Q. lra.
Qed.

Lemma Qfloor_unique (x : Q) (z : Z) :
  inject_Z z <= x → x < inject_Z (z + 1) → Qfloor x = z.
Proof.
  intros H1 H2.
  assert (A : (z <= Qfloor x)%Z).
  { rewrite <- (Qfloor_Z z). by apply Qfloor_resp_le. }
  assert (B : (Qfloor x < z + 1)%Z).
  { rewrite Zlt_Qlt. eapply Qle_lt_trans; [apply Qfloor_le|done]. }
  lia.
Qed.

Lemma rem3_range (f : Z) : (0 <= f <= 2)%Z → (0 <= Z.rem (f + 1) 3 <= 2)%Z.
Proof.
  intros H. rewrite Z.rem_mod_nonneg by lia.
  pose proof (Z.mod_pos_bound (f + 1) 3). lia.
Qed.

(** The cursor stays in range through the loop, whatever the fuel. *)
Lemma advance_frames_range (n : nat) (a : Q) (f : Z) :
  (0 <= f <= 2)%Z → (0 <= snd (advance_frames n a f) <= 2)%Z.
Proof.
  revert a f. induction n as [|n IH]; intros a f Hf; simpl; [done|].
  destruct (Qle_bool animationFrameDurationMs a); [|done].
  apply IH, rem3_range, Hf.
Qed.

(** The loop in closed form: with fuel above [⌊a/120⌋] it runs
    [k = max 0 ⌊a/120⌋] times, subtracting 120 and stepping the cursor
    modulo 3 each time, and stops with the accumulator below 120. *)
Lemma advance_frames_closed (n : nat) (a : Q) (f : Z) :
  (0 <= f <= 2)%Z →
  (Qfloor (a / animationFrameDurationMs) < Z.of_nat n)%Z →
  fst (advance_frames n a f) ==
    a - inject_Z (Z.max 0 (Qfloor (a / animationFrameDurationMs)))
        * animationFrameDurationMs ∧
  snd (advance_frames n a f) =
    ((f + Z.max 0 (Qfloor (a / animationFrameDurationMs))) mod 3)%Z ∧
  fst (advance_frames n a f) < animationFrameDurationMs ∧
  (0 <= a → 0 <= fst (advance_frames n a f)).
Proof.
  unfold animationFrameDurationMs.
  revert a f. induction n as [|n IH]; intros a f Hf Hn.
  - cbn [advance_frames fst snd].
    assert (Ea : a == a / 120 * 120) by field.
    pose proof (Qlt_floor (a / 120)) as Hlt.
    assert (Hle : inject_Z (Qfloor (a / 120) + 1) <= 0).
    { change 0 with (inject_Z 0). rewrite <- Zle_Qle. lia. }
    rewrite Z.max_l by lia. rewrite Z.add_0_r, Z.mod_small by lia.
    set (q := a / 120) in *. inj_consts.
    repeat split; lra.
  - cbn [advance_frames]. unfold animationFrameDurationMs.
    assert (Ea : a == a / 120 * 120) by field.
    pose proof (Qfloor_le (a / 120)) as Hz1.
    pose proof (Qlt_floor (a / 120)) as Hz2.
    destruct (Qle_bool 120 a) eqn:E.
    + apply Qle_bool_iff in E.
      assert (Hz : (1 <= Qfloor (a / 120))%Z).
      { rewrite <- (Qfloor_Z 1). apply Qfloor_resp_le.
        inj_consts. set (q := a / 120) in *. lra. }
      assert (Hfl : Qfloor ((a - 120) / 120) = (Qfloor (a / 120) - 1)%Z).
      { assert (Eq : (a - 120) / 120 == a / 120 - 1) by field.
        rewrite (Qfloor_comp _ _ Eq).
        apply Qfloor_unique.
        - rewrite inject_Z_pred. inj_consts. lra.
        - replace (Qfloor (a / 120) - 1 + 1)%Z with (Qfloor (a / 120)) by lia.
          rewrite inject_Z_plus in Hz2. inj_consts. lra. }
      destruct (IH (a - 120) (Z.rem (f + 1) 3) (rem3_range f Hf))
        as (I1 & I2 & I3 & I4).
      { unfold animationFrameDurationMs. rewrite Hfl. lia. }
      unfold animationFrameDurationMs in *. rewrite Hfl in I1, I2.
      rewrite Z.max_r in I1, I2 by lia. rewrite Z.max_r by lia.
      repeat split.
      * rewrite I1. rewrite inject_Z_pred. inj_consts. lra.
      * rewrite I2. rewrite Z.rem_mod_nonneg by lia.
        rewrite Zplus_mod_idemp_l. f_equal. lia.
      * done.
      * intros _. apply I4. lra.
    + assert (Ha : a < 120).
      { apply Qnot_le_lt. intros H. apply Qle_bool_iff in H. congruence. }
      assert (Hz : (Qfloor (a / 120) <= 0)%Z).
      { assert (Qfloor (a / 120) < 1)%Z; [|lia].
        rewrite Zlt_Qlt. eapply Qle_lt_trans; [apply Qfloor_le|].
        inj_consts. set (q := a / 120) in *. lra. }
      rewrite Z.max_l by lia. rewrite Z.add_0_r, Z.mod_small by lia.
      cbn [fst snd]. inj_consts.
      repeat split; try lra.
Qed.

(** The loop terminates: with the fuel [render] supplies it leaves through
    its test, and any larger fuel gives the same result. *)
Lemma advance_frames_exits (n : nat) (a : Q) (f : Z) :
  (Qfloor (a / animationFrameDurationMs) < Z.of_nat n)%Z →
  Qle_bool animationFrameDurationMs (fst (advance_frames n a f)) = false.
Proof.
  unfold animationFrameDurationMs.
  revert a f. induction n as [|n IH]; intros a f Hn.
  - cbn [advance_frames fst].
    assert (Ea : a == a / 120 * 120) by field.
    pose proof (Qlt_floor (a / 120)) as Hlt.
    assert (Hle : inject_Z (Qfloor (a / 120) + 1) <= 0).
    { change 0 with (inject_Z 0). rewrite <- Zle_Qle. lia. }
    destruct (Qle_bool 120 a) eqn:E; [|done].
    apply Qle_bool_iff in E. set (q := a / 120) in *. lra.
  - cbn [advance_frames]. unfold animationFrameDurationMs.
    destruct (Qle_bool 120 a) eqn:E; [|done].
    apply IH. unfold animationFrameDurationMs.
    assert (Eq : (a - 120) / 120 == a / 120 - 1) by field.
    rewrite (Qfloor_comp _ _ Eq).
    assert (Qfloor (a / 120 - 1) = (Qfloor (a / 120) - 1)%Z); [|lia].
    apply Qfloor_unique.
    + rewrite inject_Z_pred. pose proof (Qfloor_le (a / 120)). lra.
    + replace (Qfloor (a / 120) - 1 + 1)%Z with (Qfloor (a / 120)) by lia.
      pose proof (Qlt_floor (a / 120)) as H.
      rewrite inject_Z_plus in H. inj_consts. lra.
Qed.

Lemma advance_frames_more_fuel (n m : nat) (a : Q) (f : Z) :
  (Qfloor (a / animationFrameDurationMs) < Z.of_nat n)%Z → (n <= m)%nat →
  advance_frames m a f = advance_frames n a f.
Proof.
  unfold animationFrameDurationMs.
  revert m a f. induction n as [|n IH]; intros m a f Hn Hm.
  - assert (Ea : a == a / 120 * 120) by field.
    pose proof (Qlt_floor (a / 120)) as Hlt.
    assert (Hle : inject_Z (Qfloor (a / 120) + 1) <= 0).
    { change 0 with (inject_Z 0). rewrite <- Zle_Qle. lia. }
    destruct m as [|m]; [done|]. cbn [advance_frames].
    unfold animationFrameDurationMs.
    destruct (Qle_bool 120 a) eqn:E; [|done].
    apply Qle_bool_iff in E. set (q := a / 120) in *. lra.
  - destruct m as [|m]; [lia|]. cbn [advance_frames].
    unfold animationFrameDurationMs.
    destruct (Qle_bool 120 a) eqn:E; [|done].
    apply IH; [|lia]. unfold animationFrameDurationMs.
    assert (Eq : (a - 120) / 120 == a / 120 - 1) by field.
    rewrite (Qfloor_comp _ _ Eq).
    assert (Qfloor (a / 120 - 1) = (Qfloor (a / 120) - 1)%Z); [|lia].
    apply Qfloor_unique.
    + rewrite inject_Z_pred. pose proof (Qfloor_le (a / 120)). lra.
    + replace (Qfloor (a / 120) - 1 + 1)%Z with (Qfloor (a / 120)) by lia.
      pose proof (Qlt_floor (a / 120)) as H.
      rewrite inject_Z_plus in H. inj_consts. lra.
Qed.

Lemma frames_fuel_enough (a : Q) :
  (Qfloor (a / animationFrameDurationMs) < Z.of_nat (frames_fuel a))%Z.
Proof. unfold frames_fuel. lia. Qed.

Lemma advance_render_state_moving dtMs p st :
  moving p = true →
  animMs (advance_render_state dtMs p st) =
    fst (advance_frames (frames_fuel (animMs st + dtMs))
           (animMs st + dtMs) (frameIndex st)) ∧
  frameIndex (advance_render_state dtMs p st) =
    snd (advance_frames (frames_fuel (animMs st + dtMs))
           (animMs st + dtMs) (frameIndex st)).
Proof.
  unfold moving, advance_render_state. intros ->.
  by destruct (advance_frames _ _ _).
Qed.

Lemma advance_render_state_idle dtMs p st :
  moving p = false →
  animMs (advance_render_state dtMs p st) = 0 ∧
  frameIndex (advance_render_state dtMs p st) = 0%Z.
Proof. unfold moving, advance_render_state. by intros ->. Qed.

Lemma seeded_ok x y : entry_ok (seeded x y).
Proof. unfold entry_ok, animationFrameDurationMs; simpl. repeat split; lra || lia. Qed.

Lemma advance_render_state_ok dtMs p st :
  0 <= dtMs → entry_ok st → entry_ok (advance_render_state dtMs p st).
Proof.
  intros Hd (Ha & _ & Hf). unfold entry_ok. destruct (moving p) eqn:M.
  - destruct (advance_render_state_moving dtMs p st M) as [-> ->].
    destruct (advance_frames_closed (frames_fuel (animMs st + dtMs))
      (animMs st + dtMs) (frameIndex st) Hf (frames_fuel_enough _))
      as (_ & _ & H3 & H4).
    repeat split; [apply H4; lra | done | |];
      apply advance_frames_range, Hf.
  - destruct (advance_render_state_idle dtMs p st M) as [E1 E2].
    rewrite E1, E2. unfold animationFrameDurationMs.
    repeat split; lra || lia.
Qed.

(** The handlers of the input tracker, the resize handler and the socket
    callbacks do not touch the render states. *)
Lemma setMyLocalMovement_frame d b c :
  playerRenderState (setMyLocalMovement d b c) = playerRenderState c ∧
  pressedDirections (setMyLocalMovement d b c) = pressedDirections c ∧
  heldOrder (setMyLocalMovement d b c) = heldOrder c ∧
  wsOpen (setMyLocalMovement d b c) = wsOpen c ∧
  myPlayerId (setMyLocalMovement d b c) = myPlayerId c.
Proof.
  unfold setMyLocalMovement. by destruct (my_player c) as [[id me]|].
Qed.

Lemma triggerJump_frame c :
  playerRenderState (triggerJump c) = playerRenderState c ∧
  pressedDirections (triggerJump c) = pressedDirections c ∧
  heldOrder (triggerJump c) = heldOrder c.
Proof. unfold triggerJump. by destruct (isJumping (jumpState c)). Qed.

Lemma onKeyDown_renderState e c :
  playerRenderState (fst (onKeyDown e c)) = playerRenderState c.
Proof.
  unfold onKeyDown.
  destruct (String.eqb (key e) " " || String.eqb (code e) "Space"); simpl.
  { apply triggerJump_frame. }
  destruct (directionForKey (key e)) as [d|]; simpl; [|done].
  match goal with |- playerRenderState (setMyLocalMovement ?a ?b ?s) = _ =>
    destruct (setMyLocalMovement_frame a b s) as (-> & _) end.
  by case_decide.
Qed.

Lemma onKeyUp_renderState e c :
  playerRenderState (fst (onKeyUp e c)) = playerRenderState c.
Proof.
  unfold onKeyUp.
  destruct (directionForKey (key e)) as [d|]; simpl; [|done].
  set (c1 := if decide (d ∈ pressedDirections c) then _ else c).
  assert (H1 : playerRenderState c1 = playerRenderState c)
    by (subst c1; by case_decide).
  case_decide; simpl.
  { by destruct (setMyLocalMovement_frame None false c1) as (-> & _). }
  destruct (heldOrder c1) as [|nextDir rest]; simpl; [done|].
  destruct (String.eqb nextDir ""); simpl; [done|].
  by destruct (setMyLocalMovement_frame (Some nextDir) true c1) as (-> & _).
Qed.

Lemma onBlur_renderState c :
  playerRenderState (fst (onBlur c)) = playerRenderState c.
Proof.
  unfold onBlur. case_decide; simpl; [done|].
  by destruct (setMyLocalMovement_frame None false (set_held ∅ [] c))
    as (-> & _).
Qed.

Lemma handle_entries_ok ev c :
  entries_ok c → entries_ok (fst (handle ev c)).
Proof.
  intros Hc. destruct ev as [m|now|e|e| |w h| |]; simpl;
    try (intros id st; rewrite ?onKeyDown_renderState, ?onKeyUp_renderState,
           ?onBlur_renderState; by apply Hc).
  - destruct m as [pid ps avs|err|pid p av|ps|pid|act];
      try (by apply Hc); intros id st.
    + rewrite handle_join_renderState, lookup_union_Some_raw, lookup_fmap.
      intros [H|[_ H]]; [by eapply Hc|].
      destruct (ps !! id); simplify_eq/=. apply seeded_ok.
    + rewrite handle_joined_renderState.
      destruct (playerRenderState c !! pid) eqn:E; [by apply Hc|].
      rewrite lookup_insert_Some. intros [[_ <-]|[_ H]];
        [apply seeded_ok | by eapply Hc].
    + rewrite handle_moved_renderState, lookup_union_Some_raw, lookup_fmap.
      intros [H|[_ H]]; [by eapply Hc|].
      destruct (ps !! id); simplify_eq/=. apply seeded_ok.
    + simpl. rewrite lookup_delete_Some. intros [_ H]. by eapply Hc.
  - intros id st. rewrite render_lookup. unfold tick_entry.
    destruct (players c !! id) as [p|]; [|by apply Hc].
    intros [= <-]. apply advance_render_state_ok; [apply Q.le_max_l|].
    destruct (playerRenderState c !! id) eqn:E; simpl;
      [by eapply Hc | apply seeded_ok].
Qed.

Lemma reachable_entries_ok c : reachable c → entries_ok c.
Proof.
  induction 1 as [w h now|ev c _ IH].
  - intros id st; simpl. by rewrite lookup_empty.
  - by apply handle_entries_ok.
Qed.

(** C9.  In every state the client can be in, every render state has its
    frame cursor in {0, 1, 2}: an entry is created with cursor 0, a frame
    either resets it to 0 or steps it modulo 3, and nothing else writes it. *)
Theorem frame_cursor_in_range (c : GameClient) (id : string)
    (st : render_state) :
  reachable c → playerRenderState c !! id = Some st →
  frameIndex st = 0%Z ∨ frameIndex st = 1%Z ∨ frameIndex st = 2%Z.
Proof.
  intros Hr H. destruct (reachable_entries_ok c Hr id st H) as (_ & _ & Hf).
  lia.
Qed.

Lemma reachable_run evs c : reachable c → reachable (fst (run evs c)).
Proof.
  revert c. induction evs as [|ev evs IH]; intros c Hc; simpl; [done|].
  destruct (handle ev c) as [c1 o1] eqn:E1.
  specialize (IH c1). destruct (run evs c1) as [c2 o2]; simpl in *.
  apply IH. replace c1 with (fst (handle ev c)) by (by rewrite E1).
  by constructor.
Qed.

(** One second into the movement of "a" its cursor stands at 2. *)
Lemma frame_cursor_in_range_witness :
  frameIndex (RenderState 200 100 40 2) = 0%Z ∨
  frameIndex (RenderState 200 100 40 2) = 1%Z ∨
  frameIndex (RenderState 200 100 40 2) = 2%Z.
Proof.
  apply (frame_cursor_in_range one_second_later "a").
  - apply reachable_run. constructor.
  - vm_compute. reflexivity.
Defined.

(** C6.  After a frame, the render state of an entity whose movement flag
    is false has accumulator 0 and frame cursor 0, whatever they were (and
    whether or not the entry existed) before the frame. *)
Theorem idle_resets_animation (now : Q) (c : GameClient) (id : string)
    (p : player) :
  players c !! id = Some p → moving p = false →
  ∃ st', playerRenderState (render now c) !! id = Some st' ∧
         animMs st' = 0 ∧ frameIndex st' = 0%Z.
Proof.
  intros Hp Hm. rewrite render_lookup, Hp. simpl.
  eexists; split; [done|]. by apply advance_render_state_idle.
Qed.

(** "a" has 50 ms on its accumulator when it is told to stop; the next
    frame leaves accumulator and cursor at 0. *)
Lemma idle_resets_animation_witness :
  (∃ st, playerRenderState stopped !! "a" = Some st ∧ animMs st = 50) ∧
  ∃ st', playerRenderState (render 60 stopped) !! "a" = Some st' ∧
         animMs st' = 0 ∧ frameIndex st' = 0%Z.
Proof.
  split.
  - eexists. split; vm_compute; reflexivity.
  - apply (idle_resets_animation 60 stopped "a"
             (Player 200 100 {[ "isMoving" := JBool false ]}));
      vm_compute; reflexivity.
Defined.

(** One tick of a moving entity, in closed form. *)
Lemma moving_tick dtMs p st :
  moving p = true → 0 <= dtMs → entry_ok st →
  animMs (advance_render_state dtMs p st) ==
    animMs st + dtMs
    - inject_Z (Qfloor ((animMs st + dtMs) / animationFrameDurationMs))
      * animationFrameDurationMs ∧
  frameIndex (advance_render_state dtMs p st) =
    ((frameIndex st
      + Qfloor ((animMs st + dtMs) / animationFrameDurationMs)) mod 3)%Z.
Proof.
  intros M Hd (Ha & _ & Hf).
  destruct (advance_render_state_moving dtMs p st M) as [-> ->].
  destruct (advance_frames_closed (frames_fuel (animMs st + dtMs))
    (animMs st + dtMs) (frameIndex st) Hf (frames_fuel_enough _))
    as (H1 & H2 & _).
  assert (Hz : (0 <= Qfloor ((animMs st + dtMs) / animationFrameDurationMs))%Z).
  { rewrite <- (Qfloor_Z 0). apply Qfloor_resp_le. inj_consts.
    unfold animationFrameDurationMs.
    assert (E : animMs st + dtMs == (animMs st + dtMs) / 120 * 120) by field.
    set (q := (animMs st + dtMs) / 120) in *. lra. }
  rewrite Z.max_r in H1, H2 by done. done.
Qed.

Local Close Scope Q_scope.

(** ** Binary64: enumeration over whole numbers *)



(** ** Binary64: the animation loop *)









Local Open Scope Q_scope.

(** ** Smoothing *)

Lemma advance_render_state_pos dtMs p st :
  renderX (advance_render_state dtMs p st) =
    renderX st + (pos_x p - renderX st) * smoothing_factor (dtMs / 1000) ∧
  renderY (advance_render_state dtMs p st) =
    renderY st + (pos_y p - renderY st) * smoothing_factor (dtMs / 1000).
Proof.
  unfold advance_render_state.
  destruct (truthy (fields p !! "isMoving")); [|done].
  by destruct (advance_frames _ _ _).
Qed.

(** The factor [Math.min(1, dt * 10)] in terms of the elapsed milliseconds. *)
Lemma smoothing_factor_short dtMs :
  dtMs < 100 → smoothing_factor (dtMs / 1000) == dtMs / 100.
Proof.
  intros H. unfold smoothing_factor, positionSmoothingPerSecond.
  assert (E : dtMs / 1000 * 10 == dtMs / 100) by field.
  assert (E2 : dtMs == dtMs / 100 * 100) by field.
  rewrite Q.min_r; [done|]. rewrite E. set (q := dtMs / 100) in *. lra.
Qed.


(** ** Binary64: the smoothing step *)











(** ** Camera *)

(** [clamp_offset] clamps to [0, world - canvas] when that range is not
    empty, and is 0 when the canvas is larger than the world. *)
Lemma clamp_offset_spec (v world canvas : Q) :
  (canvas <= world →
     0 <= clamp_offset v world canvas <= world - canvas ∧
     (0 <= v <= world - canvas → clamp_offset v world canvas == v) ∧
     (v <= 0 → clamp_offset v world canvas == 0) ∧
     (world - canvas <= v → clamp_offset v world canvas == world - canvas)) ∧
  (world < canvas → clamp_offset v world canvas == 0).
Proof.
  unfold clamp_offset.
  destruct (Q.max_spec 0 (Qmin v (world - canvas))) as [[M1 M2]|[M1 M2]];
  destruct (Q.min_spec v (world - canvas)) as [[N1 N2]|[N1 N2]];
    (split; [intros H; repeat split; intros; lra | intros H; lra]).
Qed.

(** C4.  When the local player is known, recentering sets the offset on
    each axis to the focus (the smoothed position of the local player, or its
    authoritative position when it has no render state) minus half the canvas
    size, clamped to [0, world - canvas]; with a canvas larger than the world
    on an axis the offset on that axis is 0, whatever the focus. *)
Theorem recenter_clamps (c : GameClient) (id : string) (me : player) :
  my_player c = Some (id, me) →
  let focusX := match playerRenderState c !! id with
                | Some r => renderX r | None => pos_x me end in
  let focusY := match playerRenderState c !! id with
                | Some r => renderY r | None => pos_y me end in
  let vx := viewportX (centerViewportOnPlayer c) in
  let vy := viewportY (centerViewportOnPlayer c) in
  let wx := focusX - canvasWidth c / 2 in
  let wy := focusY - canvasHeight c / 2 in
  let mx := worldWidth c - canvasWidth c in
  let my := worldHeight c - canvasHeight c in
  vx = Qmax 0 (Qmin wx mx) ∧ vy = Qmax 0 (Qmin wy my) ∧
  (0 <= mx → 0 <= vx <= mx ∧ (0 <= wx <= mx → vx == wx) ∧
             (wx <= 0 → vx == 0) ∧ (mx <= wx → vx == mx)) ∧
  (0 <= my → 0 <= vy <= my ∧ (0 <= wy <= my → vy == wy) ∧
             (wy <= 0 → vy == 0) ∧ (my <= wy → vy == my)) ∧
  (mx < 0 → vx == 0) ∧ (my < 0 → vy == 0).
Proof.
  intros Hme. unfold centerViewportOnPlayer. rewrite Hme. simpl.
  set (fx := match playerRenderState c !! id with
             | Some r => renderX r | None => pos_x me end).
  set (fy := match playerRenderState c !! id with
             | Some r => renderY r | None => pos_y me end).
  destruct (clamp_offset_spec (fx - canvasWidth c / 2)
              (worldWidth c) (canvasWidth c)) as [X1 X2].
  destruct (clamp_offset_spec (fy - canvasHeight c / 2)
              (worldHeight c) (canvasHeight c)) as [Y1 Y2].
  unfold clamp_offset in *.
  split; [done|split; [done|]].
  split; [intros H; apply X1; lra|].
  split; [intros H; apply Y1; lra|].
  split; intros H; [apply X2 | apply Y2]; lra.
Qed.

(** Without a known local player the camera stays where it is. *)
Lemma recenter_without_player c :
  my_player c = None → centerViewportOnPlayer c = c.
Proof. unfold centerViewportOnPlayer. by intros ->. Qed.

(** The statement at the joined client (canvas 800 x 600, "a" at (100,100)):
    the focus minus half the canvas is negative on both axes, so the offset
    is (0,0); and on a 4000 pixel wide canvas the x offset is 0 too. *)
Lemma recenter_clamps_witness :
  viewportX (centerViewportOnPlayer joined_once) == 0 ∧
  viewportY (centerViewportOnPlayer joined_once) == 0 ∧
  viewportX (centerViewportOnPlayer (set_canvas 4000 600 joined_once)) == 0.
Proof.
  destruct (recenter_clamps joined_once "a" ann) as (_ & _ & Hx & Hy & _);
    [vm_compute; reflexivity|].
  destruct (recenter_clamps (set_canvas 4000 600 joined_once) "a" ann)
    as (_ & _ & _ & _ & Hw & _); [vm_compute; reflexivity|].
  split; [|split].
  - apply Hx; by vm_compute.
  - apply Hy; by vm_compute.
  - apply Hw; by vm_compute.
Defined.

(** ** Input Intent Tracker *)

Local Close Scope Q_scope.

Lemma directionForKey_nonempty k d : directionForKey k = Some d → d ≠ "".
Proof.
  unfold directionForKey.
  repeat (destruct (String.eqb k _); [by intros [= <-]|]). done.
Qed.

(** The reconciler and the frame driver leave the input state alone. *)
Lemma handleServerMessage_input m c :
  pressedDirections (handleServerMessage m c) = pressedDirections c ∧
  heldOrder (handleServerMessage m c) = heldOrder c.
Proof.
  destruct m as [pid ps avs|err|pid p av|ps|pid|act]; simpl; try done.
  - match goal with |- context [centerViewportOnPlayer ?s] =>
      destruct (centerViewportOnPlayer_frame s) as (_ & _ & _ & _ & -> & ->) end.
    rewrite ensureRenderStates_spec; simpl.
    by destruct (loadAvatarImages_spec
      (set_avatars avs (set_players ps (set_myPlayerId (Some pid) c))))
      as [li ->].
  - unfold ensureRenderState.
    destruct (loadAvatarImage_spec av
      (set_avatars (<[av_name av := av]> (avatars c))
         (set_players (<[pid := p]> (players c)) c))) as [li ->]; simpl.
    by destruct (playerRenderState c !! pid).
  - by rewrite ensureRenderStates_spec.
Qed.

Lemma render_input now c :
  pressedDirections (render now c) = pressedDirections c ∧
  heldOrder (render now c) = heldOrder c.
Proof.
  unfold render; simpl.
  match goal with |- context [centerViewportOnPlayer ?s] =>
    destruct (centerViewportOnPlayer_frame s) as (_ & _ & _ & _ & -> & ->) end.
  by rewrite render_players_spec.
Qed.

Lemma newest_first_ext g g' l :
  (∀ d, d ∈ l → g' !! d = g !! d) → newest_first g l → newest_first g' l.
Proof.
  induction l as [|x l IH]; simpl; [done|]. intros He [H1 H2]. split.
  - intros d' Hd'. destruct (H1 d' Hd') as (t1 & t2 & E1 & E2 & Hlt).
    exists t1, t2. rewrite !He; [done | by right | by left].
  - apply IH; [|done]. intros d Hd. apply He. by right.
Qed.

Lemma newest_first_filter g (P : string → Prop) `{∀ x, Decision (P x)} l :
  newest_first g l → newest_first g (filter P l).
Proof.
  induction l as [|x l IH]; simpl; [done|]. intros [H1 H2].
  rewrite filter_cons. destruct (decide (P x)); simpl; [|by apply IH].
  split; [|by apply IH]. intros d' Hd'. apply H1.
  by apply list_elem_of_filter in Hd' as [_ ?].
Qed.


Lemma newest_first_NoDup g l : newest_first g l → NoDup l.
Proof.
  induction l as [|x l IH]; simpl; [constructor|]. intros [H1 H2].
  constructor; [|by apply IH]. intros Hin.
  destruct (H1 x Hin) as (t1 & t2 & E1 & E2 & Hlt). simplify_eq. lia.
Qed.

Lemma tracker_inv_initial w h now : tracker_inv (initial w h now) ∅ 0.
Proof.
  split; simpl; try done.
  - intros d. rewrite lookup_empty. split; [set_solver|by intros [? ?]].
  - intros d. rewrite lookup_empty. split; [set_solver|by intros [? ?]].
  - intros d Hd. by apply elem_of_nil in Hd.
Qed.

(** Only the tracker's two fields matter for the invariant. *)
Lemma tracker_inv_same c c' g t :
  pressedDirections c' = pressedDirections c → heldOrder c' = heldOrder c →
  tracker_inv c g t → tracker_inv c' g t.
Proof. intros E1 E2 [? ? ? ? ?]. split; rewrite ?E1, ?E2; done. Qed.

Lemma tracker_inv_mono c g t : tracker_inv c g t → tracker_inv c g (S t).
Proof.
  intros [? ? ? Hb ?]. split; try done. intros d s Hs.
  specialize (Hb d s Hs). lia.
Qed.

Lemma tracker_inv_press c g t d :
  tracker_inv c g t → d ≠ "" → g !! d = None →
  tracker_inv (set_held ({[d]} ∪ pressedDirections c) (d :: heldOrder c) c)
    (<[d := t]> g) (S t).
Proof.
  intros [Hp Hh Ho Hb Hn] Hd Hg. split; simpl.
  - intros x. rewrite elem_of_union, elem_of_singleton, Hp.
    destruct (decide (d = x)) as [<-|Hne].
    + rewrite lookup_insert_eq. clear; intuition eauto.
    + rewrite lookup_insert_ne by done. clear -Hne; intuition congruence.
  - intros x. rewrite elem_of_cons, Hh.
    destruct (decide (d = x)) as [<-|Hne].
    + rewrite lookup_insert_eq. clear; intuition eauto.
    + rewrite lookup_insert_ne by done. clear -Hne; intuition congruence.
  - split.
    + intros d' Hd'. apply Hh in Hd' as [s Hs].
      assert (d ≠ d') by (intros <-; congruence).
      exists t, s. rewrite lookup_insert_eq, lookup_insert_ne by done.
      split; [done|split; [done|]]. by eapply Hb.
    + eapply newest_first_ext; [|done]. intros x Hx.
      apply lookup_insert_ne. intros <-.
      apply Hh in Hx as [? ?]. congruence.
  - intros x s. destruct (decide (d = x)) as [<-|Hne].
    + rewrite lookup_insert_eq. intros [= <-]. lia.
    + rewrite lookup_insert_ne by done. intros Hs.
      specialize (Hb x s Hs). lia.
  - intros x [->|Hx]%elem_of_cons; [done|by apply Hn].
Qed.

Lemma tracker_inv_release c g t d :
  tracker_inv c g t →
  tracker_inv (set_held (pressedDirections c ∖ {[d]})
                 (filter (λ x, x ≠ d) (heldOrder c)) c)
    (delete d g) (S t).
Proof.
  intros [Hp Hh Ho Hb Hn]. split; simpl.
  - intros x. rewrite elem_of_difference, elem_of_singleton, Hp.
    destruct (decide (d = x)) as [<-|Hne].
    + rewrite lookup_delete_eq. clear; split; [intuition congruence|by intros [? ?]].
    + rewrite lookup_delete_ne by done. clear -Hne; intuition congruence.
  - intros x. rewrite list_elem_of_filter, Hh.
    destruct (decide (d = x)) as [<-|Hne].
    + rewrite lookup_delete_eq. clear; split; [intuition congruence|by intros [? ?]].
    + rewrite lookup_delete_ne by done. clear -Hne; intuition congruence.
  - eapply newest_first_ext; [|by apply newest_first_filter].
    intros x [Hx _]%list_elem_of_filter. by apply lookup_delete_ne.
  - intros x s [_ Hs]%lookup_delete_Some. specialize (Hb x s Hs). lia.
  - intros x [_ Hx]%list_elem_of_filter. by apply Hn.
Qed.

Lemma onKeyDown_input e c d :
  String.eqb (key e) " " || String.eqb (code e) "Space" = false →
  directionForKey (key e) = Some d →
  pressedDirections (fst (onKeyDown e c)) =
    (if decide (d ∈ pressedDirections c) then pressedDirections c
     else {[d]} ∪ pressedDirections c) ∧
  heldOrder (fst (onKeyDown e c)) =
    (if decide (d ∈ pressedDirections c) then heldOrder c
     else d :: heldOrder c).
Proof.
  intros Hs Hd. unfold onKeyDown. rewrite Hs, Hd. simpl.
  match goal with |- context [setMyLocalMovement ?a ?b ?s] =>
    destruct (setMyLocalMovement_frame a b s) as (_ & -> & -> & _) end.
  by case_decide.
Qed.

Lemma onKeyUp_input e c d :
  directionForKey (key e) = Some d →
  pressedDirections (fst (onKeyUp e c)) = pressedDirections (released d c) ∧
  heldOrder (fst (onKeyUp e c)) = heldOrder (released d c).
Proof.
  intros Hd. unfold onKeyUp. rewrite Hd. fold (released d c).
  case_decide; simpl.
  { by destruct (setMyLocalMovement_frame None false (released d c))
      as (_ & -> & -> & _). }
  destruct (heldOrder (released d c)) as [|nextDir rest] eqn:E; simpl;
    [by rewrite E|].
  destruct (String.eqb nextDir ""); simpl; [by rewrite E|].
  destruct (setMyLocalMovement_frame (Some nextDir) true (released d c))
    as (_ & -> & -> & _). by rewrite E.
Qed.

Lemma handle_tracker_inv ev c g t :
  tracker_inv c g t →
  tracker_inv (fst (handle ev c)) (press_time_step t ev g) (S t).
Proof.
  intros Hinv. destruct ev as [m|now|e|e| |w h| |]; simpl;
    try (apply tracker_inv_mono; eapply tracker_inv_same; [| |exact Hinv];
         done).
  - apply tracker_inv_mono.
    eapply tracker_inv_same; [apply handleServerMessage_input ..|done].
  - apply tracker_inv_mono.
    eapply tracker_inv_same; [apply render_input ..|done].
  - destruct (String.eqb (key e) " " || String.eqb (code e) "Space") eqn:Hs.
    { apply tracker_inv_mono. unfold onKeyDown. rewrite Hs. simpl.
      eapply tracker_inv_same; [apply triggerJump_frame ..|done]. }
    destruct (directionForKey (key e)) as [d|] eqn:Hd.
    2:{ apply tracker_inv_mono. unfold onKeyDown. by rewrite Hs, Hd. }
    destruct (onKeyDown_input e c d Hs Hd) as [E1 E2].
    destruct (decide (d ∈ pressedDirections c)) as [Hin|Hnin].
    + apply (inv_pressed _ _ _ Hinv) in Hin as [s Hg]. rewrite Hg.
      apply tracker_inv_mono. by eapply tracker_inv_same.
    + assert (Hg : g !! d = None).
      { destruct (g !! d) eqn:E; [|done]. exfalso. apply Hnin.
        apply (inv_pressed _ _ _ Hinv). by rewrite E. }
      rewrite Hg.
      eapply tracker_inv_same;
        [| |apply (tracker_inv_press c g t d Hinv);
            [by eapply directionForKey_nonempty|done]]; done.
  - destruct (directionForKey (key e)) as [d|] eqn:Hd.
    2:{ apply tracker_inv_mono. unfold onKeyUp. by rewrite Hd. }
    destruct (onKeyUp_input e c d Hd) as [E1 E2]. unfold released in *.
    destruct (decide (d ∈ pressedDirections c)) as [Hin|Hnin].
    + eapply tracker_inv_same; [| |apply (tracker_inv_release c g t d Hinv)];
        done.
    + assert (Hg : g !! d = None).
      { destruct (g !! d) eqn:E; [|done]. exfalso. apply Hnin.
        apply (inv_pressed _ _ _ Hinv). by rewrite E. }
      rewrite delete_id by done.
      apply tracker_inv_mono. by eapply tracker_inv_same.
  - unfold onBlur. case_decide as Hsz; simpl.
    + apply size_empty_inv in Hsz.
      assert (Hnone : ∀ d, g !! d = None).
      { intros d. destruct (g !! d) eqn:E; [|done]. exfalso.
        assert (d ∈ pressedDirections c)
          by (apply (inv_pressed _ _ _ Hinv); by rewrite E).
        set_solver. }
      replace (∅ : gmap string nat) with g; [by apply tracker_inv_mono|].
      apply map_eq; intros d. by rewrite Hnone, lookup_empty.
    + destruct (setMyLocalMovement_frame None false (set_held ∅ [] c))
        as (_ & E1 & E2 & _).
      eapply tracker_inv_same; [exact E1|exact E2|]. split; simpl; try done.
      * intros d. rewrite lookup_empty. split; [set_solver|by intros [? ?]].
      * intros d. rewrite lookup_empty. split; [set_solver|by intros [? ?]].
      * intros d Hd. by apply elem_of_nil in Hd.
Qed.





(** ** Lockstep through the whole event loop *)

Lemma my_player_Some c id me :
  my_player c = Some (id, me) →
  myPlayerId c = Some id ∧ id ≠ "" ∧ players c !! id = Some me.
Proof.
  unfold my_player. destruct (myPlayerId c) as [i|]; [|done].
  destruct (String.eqb i "") eqn:E; [done|].
  destruct (players c !! i) eqn:Ep; [|done].
  intros [= <- <-]. by apply String.eqb_neq in E.
Qed.








(** ** Scenarios *)

Local Open Scope Q_scope.

(** Join with the local player alone at (100,100), idle: after the first
    frame the smoothed position is (100,100), the cursor is 0, and the camera
    (canvas 800 x 600) is clamped to the world's corner. *)
Example first_frame_after_join :
  ∃ st, playerRenderState (render 16 joined_once) !! "a" = Some st ∧
        renderX st == 100 ∧ renderY st == 100 ∧
        animMs st = 0 ∧ frameIndex st = 0%Z ∧
        viewportX (render 16 joined_once) == 0 ∧
        viewportY (render 16 joined_once) == 0.
Proof. eexists. repeat split; vm_compute; reflexivity. Qed.

(** In a world-sized window the camera centres on the player. *)
Example camera_centres_inside_the_world :
  viewportX (centerViewportOnPlayer
               (handleServerMessage
                  (JoinGameSuccess "a" {[ "a" := Player 1000 900 ∅ ]} ∅)
                  (initial 800 600 0))) == 600 ∧
  viewportY (centerViewportOnPlayer
               (handleServerMessage
                  (JoinGameSuccess "a" {[ "a" := Player 1000 900 ∅ ]} ∅)
                  (initial 800 600 0))) == 600.
Proof. split; vm_compute; reflexivity. Qed.

(** The batch [move_a]: 100 ms later the smoothed position has arrived, 50 ms
    later it is half way. *)
Example smoothing_after_100ms :
  ∃ st, playerRenderState (render 100 after_move_a) !! "a" = Some st ∧
        renderX st == 200 ∧ renderY st == 100.
Proof. eexists. repeat split; vm_compute; reflexivity. Qed.

Example smoothing_after_50ms :
  ∃ st, playerRenderState (render 50 after_move_a) !! "a" = Some st ∧
        renderX st == 150 ∧ renderY st == 100.
Proof. eexists. repeat split; vm_compute; reflexivity. Qed.

(** A departure removes the entity and its render state. *)
Example player_left_removes_both :
  players (handleServerMessage (PlayerLeft "a") joined_once) !! "a" = None ∧
  playerRenderState (handleServerMessage (PlayerLeft "a") joined_once) !! "a"
  = None.
Proof. split; vm_compute; reflexivity. Qed.

Local Close Scope Q_scope.

(** Press up, press left, release left: [move up] is sent again.  Press up,
    press left, release up: [move left] is sent again. *)
Example tie_break_release_newest :
  snd (run [SocketOpen;
            KeyDown (KeyEvent "ArrowUp" "ArrowUp");
            KeyDown (KeyEvent "ArrowLeft" "ArrowLeft");
            KeyUp (KeyEvent "ArrowLeft" "ArrowLeft")] (initial 800 600 0))
  = [WJoin "brittC"; WMove "up"; WMove "left"; WMove "up"].
Proof. vm_compute. reflexivity. Qed.

Example tie_break_release_oldest :
  snd (run [SocketOpen;
            KeyDown (KeyEvent "ArrowUp" "ArrowUp");
            KeyDown (KeyEvent "ArrowLeft" "ArrowLeft");
            KeyUp (KeyEvent "ArrowUp" "ArrowUp")] (initial 800 600 0))
  = [WJoin "brittC"; WMove "up"; WMove "left"; WMove "left"].
Proof. vm_compute. reflexivity. Qed.

(** Releasing the last held direction sends one [stop]; with the socket
    closed nothing is sent at all. *)
Example release_last_sends_stop :
  snd (run [SocketOpen;
            KeyDown (KeyEvent "ArrowUp" "ArrowUp");
            KeyUp (KeyEvent "ArrowUp" "ArrowUp")] (initial 800 600 0))
  = [WJoin "brittC"; WMove "up"; WStop].
Proof. vm_compute. reflexivity. Qed.

Example closed_socket_sends_nothing :
  snd (run [KeyDown (KeyEvent "ArrowUp" "ArrowUp");
            KeyUp (KeyEvent "ArrowUp" "ArrowUp")] (initial 800 600 0)) = [].
Proof. vm_compute. reflexivity. Qed.

(** * The rest of the client: properties *)

(** ** Handlers in normal form *)

Lemma set_viewport_id c : set_viewport (viewportX c) (viewportY c) c = c.
Proof. by destruct c. Qed.

Lemma centerViewportOnPlayer_spec c :
  ∃ vx vy, centerViewportOnPlayer c = set_viewport vx vy c.
Proof.
  unfold centerViewportOnPlayer. destruct (my_player c) as [[id me]|].
  - eauto.
  - exists (viewportX c), (viewportY c). by rewrite set_viewport_id.
Qed.

Lemma handle_join_spec pid ps avs c :
  ∃ vx vy li,
    handleServerMessage (JoinGameSuccess pid ps avs) c =
    set_viewport vx vy
      (set_playerRenderState (playerRenderState c ∪ (seed_of <$> ps))
         (set_loadedImages li
            (set_avatars avs (set_players ps (set_myPlayerId (Some pid) c))))).
Proof.
  simpl.
  destruct (loadAvatarImages_spec
    (set_avatars avs (set_players ps (set_myPlayerId (Some pid) c))))
    as [li ->].
  rewrite ensureRenderStates_spec; simpl.
  match goal with |- context [centerViewportOnPlayer ?s] =>
    destruct (centerViewportOnPlayer_spec s) as (vx & vy & ->) end.
  by exists vx, vy, li.
Qed.

Lemma handle_joined_spec id p av c :
  handleServerMessage (PlayerJoined id p av) c =
  set_playerRenderState
    (match playerRenderState c !! id with
     | Some _ => playerRenderState c
     | None => <[id := seed_of p]> (playerRenderState c)
     end)
    (set_loadedImages
       (match loadedImages c !! av_name av with
        | Some _ => loadedImages c
        | None => <[av_name av := av_frames av]> (loadedImages c)
        end)
       (set_avatars (<[av_name av := av]> (avatars c))
          (set_players (<[id := p]> (players c)) c))).
Proof.
  destruct c; simpl. unfold loadAvatarImage; simpl.
  destruct (_ !! av_name av); unfold ensureRenderState; simpl;
    destruct (_ !! id); reflexivity.
Qed.

Lemma handle_moved_spec ps c :
  handleServerMessage (PlayersMoved ps) c =
  set_playerRenderState (playerRenderState c ∪ (seed_of <$> ps))
    (set_players (ps ∪ players c) c).
Proof. simpl. by rewrite ensureRenderStates_spec. Qed.

Lemma render_spec now c :
  ∃ vx vy,
    render now c =
    set_jumpState
      (advance_jump (Qmax 0 (now - lastFrameTimeMs c)) (jumpState c))
      (set_viewport vx vy
         (set_playerRenderState
            (merge (tick_entry (Qmax 0 (now - lastFrameTimeMs c)))
               (players c) (playerRenderState c))
            (set_lastFrameTimeMs now c))).
Proof.
  unfold render. simpl. rewrite render_players_spec. simpl.
  match goal with |- context [centerViewportOnPlayer ?s] =>
    destruct (centerViewportOnPlayer_spec s) as (vx & vy & ->) end.
  by exists vx, vy.
Qed.

Lemma setMyLocalMovement_spec d b c :
  ∃ ps, setMyLocalMovement d b c = set_players ps c.
Proof.
  unfold setMyLocalMovement. destruct (my_player c) as [[id me]|]; [eauto|].
  exists (players c). by destruct c.
Qed.

Lemma triggerJump_spec c : ∃ j, triggerJump c = set_jumpState j c.
Proof.
  unfold triggerJump. destruct (isJumping (jumpState c)); [|eauto].
  exists (jumpState c). by destruct c.
Qed.

(** Every handler of the input tracker changes, at most, the held
    directions, the registry and the jump gesture. *)
Lemma input_spec ev c :
  is_input ev = true →
  ∃ s o ps j,
    fst (handle ev c) = set_jumpState j (set_players ps (set_held s o c)).
Proof.
  assert (Hid : ∀ c0 : GameClient,
    c0 = set_jumpState (jumpState c0)
           (set_players (players c0)
              (set_held (pressedDirections c0) (heldOrder c0) c0)))
    by (by intros []).
  destruct ev as [m|now|e|e| |w h| |]; try done; intros _; simpl.
  - unfold onKeyDown.
    destruct (String.eqb (key e) " " || String.eqb (code e) "Space"); simpl.
    { destruct (triggerJump_spec c) as [j ->].
      exists (pressedDirections c), (heldOrder c), (players c), j.
      by destruct c. }
    destruct (directionForKey (key e)) as [d|]; simpl; [|eauto].
    match goal with |- context [setMyLocalMovement ?a ?b ?s] =>
      destruct (setMyLocalMovement_spec a b s) as [ps ->] end.
    case_decide.
    + exists (pressedDirections c), (heldOrder c), ps, (jumpState c).
      by destruct c.
    + by exists ({[d]} ∪ pressedDirections c), (d :: heldOrder c), ps,
        (jumpState c).
  - unfold onKeyUp.
    destruct (directionForKey (key e)) as [d|]; simpl; [|eauto].
    fold (released d c).
    assert (Hrel : ∃ s o, released d c = set_held s o c).
    { unfold released. case_decide; [eauto|].
      exists (pressedDirections c), (heldOrder c). by destruct c. }
    destruct Hrel as (s & o & ->).
    case_decide; simpl.
    { destruct (setMyLocalMovement_spec None false (set_held s o c))
        as [ps ->]. by exists s, o, ps, (jumpState c). }
    destruct o as [|nextDir rest]; simpl.
    { by exists s, [], (players c), (jumpState c). }
    destruct (String.eqb nextDir ""); simpl.
    { by exists s, (nextDir :: rest), (players c), (jumpState c). }
    destruct (setMyLocalMovement_spec (Some nextDir) true
                (set_held s (nextDir :: rest) c)) as [ps ->].
    by exists s, (nextDir :: rest), ps, (jumpState c).
  - unfold onBlur. case_decide; simpl; [eauto|].
    destruct (setMyLocalMovement_spec None false (set_held ∅ [] c))
      as [ps ->]. by exists ∅, [], ps, (jumpState c).
Qed.

(** ** Input tracker: the held directions *)

Lemma directionForKey_valid k d : directionForKey k = Some d → d ∈ directions.
Proof.
  unfold directionForKey, directions.
  repeat (destruct (String.eqb k _); [intros [= <-]; set_solver|]). done.
Qed.

Lemma reachable_tracker_inv c : reachable c → ∃ g t, tracker_inv c g t.
Proof.
  induction 1 as [w h now|ev c _ (g & t & IH)].
  - exists ∅, 0. apply tracker_inv_initial.
  - exists (press_time_step t ev g), (S t). by apply handle_tracker_inv.
Qed.

Lemma handle_held_valid ev c : held_valid c → held_valid (fst (handle ev c)).
Proof.
  intros Hv. destruct ev as [m|now|e|e| |w h| |]; simpl; try done.
  - intros d. destruct (handleServerMessage_input m c) as [_ ->]. apply Hv.
  - intros d. destruct (render_input now c) as [_ ->]. apply Hv.
  - destruct (String.eqb (key e) " " || String.eqb (code e) "Space") eqn:Hs.
    { unfold onKeyDown. rewrite Hs. simpl. intros d.
      destruct (triggerJump_frame c) as (_ & _ & ->). apply Hv. }
    destruct (directionForKey (key e)) as [d|] eqn:Hd.
    2:{ unfold onKeyDown. by rewrite Hs, Hd. }
    destruct (onKeyDown_input e c d Hs Hd) as [_ E]. intros x. rewrite E.
    case_decide; [apply Hv|].
    intros [->|Hx]%elem_of_cons; [by eapply directionForKey_valid|by apply Hv].
  - destruct (directionForKey (key e)) as [d|] eqn:Hd.
    2:{ unfold onKeyUp. by rewrite Hd. }
    destruct (onKeyUp_input e c d Hd) as [_ E]. intros x. rewrite E.
    unfold released. case_decide; [|apply Hv]. simpl.
    intros [_ Hx]%list_elem_of_filter. by apply Hv.
  - unfold onBlur. case_decide; simpl; [done|]. intros d.
    destruct (setMyLocalMovement_frame None false (set_held ∅ [] c))
      as (_ & _ & -> & _). simpl. by intros ?%elem_of_nil.
Qed.

Lemma reachable_held_valid c : reachable c → held_valid c.
Proof.
  induction 1 as [w h now|ev c _ IH].
  - intros d; simpl. by intros ?%elem_of_nil.
  - by apply handle_held_valid.
Qed.

Lemma reachable_held_iff (c : GameClient) :
  reachable c → ∀ d, d ∈ heldOrder c ↔ d ∈ pressedDirections c.
Proof.
  intros Hr d. destruct (reachable_tracker_inv c Hr) as (g & t & Hinv).
  by rewrite (inv_held _ _ _ Hinv), (inv_pressed _ _ _ Hinv).
Qed.

(** X1.  In every state the client can be in, the recency list has no
    duplicates, lists exactly the directions of the held set, holds direction
    tokens only, and so has as many entries as the set has members, four at
    most. *)
Theorem held_directions_consistent (c : GameClient) :
  reachable c →
  NoDup (heldOrder c) ∧
  (∀ d, d ∈ heldOrder c ↔ d ∈ pressedDirections c) ∧
  (∀ d, d ∈ heldOrder c → d ∈ directions) ∧
  size (pressedDirections c) = length (heldOrder c) ∧
  (length (heldOrder c) ≤ 4)%nat.
Proof.
  intros Hr. destruct (reachable_tracker_inv c Hr) as (g & t & Hinv).
  pose proof (reachable_held_valid c Hr) as Hv.
  pose proof (reachable_held_iff c Hr) as Hiff.
  assert (Hnd : NoDup (heldOrder c))
    by (eapply newest_first_NoDup, (inv_order _ _ _ Hinv)).
  split; [done|split; [done|split; [done|split]]].
  - assert (E : pressedDirections c = list_to_set (heldOrder c)).
    { apply set_eq. intros d. rewrite elem_of_list_to_set. by rewrite Hiff. }
    rewrite E. by apply size_list_to_set.
  - change 4%nat with (length directions).
    apply submseteq_length, NoDup_submseteq; [done|]. apply Hv.
Qed.

Lemma held_directions_consistent_witness :
  size (pressedDirections two_held) = length (heldOrder two_held) ∧
  (length (heldOrder two_held) ≤ 4)%nat.
Proof.
  destruct (held_directions_consistent two_held)
    as (_ & _ & _ & H1 & H2); [|by split].
  apply reachable_run. constructor.
Defined.

(** ** Input tracker: key-down *)



(** ** Input tracker: loss of focus *)



(** ** Outbound messages *)

Lemma handle_wsOpen ev c :
  ev ≠ SocketOpen → ev ≠ SocketClose →
  wsOpen (fst (handle ev c)) = wsOpen c.
Proof.
  intros H1 H2. destruct ev as [m|now|e|e| |w h| |]; try done.
  - change (wsOpen (handleServerMessage m c) = wsOpen c).
    destruct m as [pid ps avs|err|pid p av|ps|pid|act]; try done.
    + by destruct (handle_join_spec pid ps avs c) as (vx & vy & li & ->).
    + by rewrite handle_joined_spec.
    + by rewrite handle_moved_spec.
  - change (wsOpen (render now c) = wsOpen c).
    by destruct (render_spec now c) as (vx & vy & ->).
  - by destruct (input_spec (KeyDown e) c eq_refl) as (s & o & ps & j & ->).
  - by destruct (input_spec (KeyUp e) c eq_refl) as (s & o & ps & j & ->).
  - by destruct (input_spec Blur c eq_refl) as (s & o & ps & j & ->).
Qed.

Lemma handle_closed_silent ev c :
  wsOpen c = false → ev ≠ SocketOpen → snd (handle ev c) = [].
Proof.
  intros Hc Hev. destruct ev as [m|now|e|e| |w h| |]; try done; simpl.
  - unfold onKeyDown.
    destruct (String.eqb (key e) " " || String.eqb (code e) "Space"); [done|].
    destruct (directionForKey (key e)) as [d|]; [|done]. simpl.
    unfold sendMove. case_decide; simpl; by rewrite Hc.
  - unfold onKeyUp.
    destruct (directionForKey (key e)) as [d|]; [|done].
    fold (released d c).
    assert (Hw : wsOpen (released d c) = false)
      by (unfold released; by case_decide).
    case_decide; simpl.
    { unfold sendStop. by rewrite Hw. }
    destruct (heldOrder (released d c)) as [|nextDir rest]; [done|].
    destruct (String.eqb nextDir ""); [done|]. simpl.
    unfold sendMove. by rewrite Hw.
  - unfold onBlur. case_decide; simpl; [done|].
    unfold sendStop. simpl. by rewrite Hc.
Qed.

(** X4.  While the socket is not open nothing is sent: from a client whose
    socket is closed, any sequence of events without a socket-open sends no
    message at all (key presses and releases are dropped, not queued). *)
Theorem nothing_sent_while_socket_closed (evs : list event) (c : GameClient) :
  wsOpen c = false → SocketOpen ∉ evs →
  snd (run evs c) = [] ∧ wsOpen (fst (run evs c)) = false.
Proof.
  revert c. induction evs as [|ev evs IH]; intros c Hc Hn; simpl; [done|].
  assert (Hev : ev ≠ SocketOpen) by (intros ->; apply Hn; by left).
  assert (Hrest : SocketOpen ∉ evs) by (intros H; apply Hn; by right).
  pose proof (handle_closed_silent ev c Hc Hev) as Hout.
  assert (Hw : wsOpen (fst (handle ev c)) = false).
  { destruct ev; try (by rewrite handle_wsOpen); done. }
  destruct (handle ev c) as [c1 o1]; simpl in *.
  destruct (IH c1 Hw Hrest) as [E1 E2].
  destruct (run evs c1) as [c2 o2]; simpl in *. by subst.
Qed.

Lemma nothing_sent_while_socket_closed_witness :
  snd (run [KeyDown (KeyEvent "ArrowUp" "ArrowUp");
            Inbound (JoinGameSuccess "a" {[ "a" := ann ]} ∅);
            KeyUp (KeyEvent "ArrowUp" "ArrowUp"); Blur]
         (initial 800 600 0)) = [].
Proof.
  apply nothing_sent_while_socket_closed; [reflexivity|].
  intros H.
  repeat (apply elem_of_cons in H as [H|H]; [discriminate|]).
  by apply elem_of_nil in H.
Defined.

Lemma sendMove_ok d c : d ∈ directions → Forall wire_ok (sendMove d c).
Proof.
  intros Hd. unfold sendMove. destruct (wsOpen c); [|constructor].
  apply Forall_cons. split; [exact Hd|constructor].
Qed.

Lemma sendStop_ok c : Forall wire_ok (sendStop c).
Proof.
  unfold sendStop. destruct (wsOpen c); [|constructor].
  apply Forall_cons. split; [exact I|constructor].
Qed.

Lemma handle_out_ok ev c :
  held_valid c → Forall wire_ok (snd (handle ev c)).
Proof.
  intros Hv. destruct ev as [m|now|e|e| |w h| |]; simpl;
    try (by constructor).
  - unfold onKeyDown.
    destruct (String.eqb (key e) " " || String.eqb (code e) "Space");
      [by constructor|].
    destruct (directionForKey (key e)) as [d|] eqn:Hd; [|by constructor].
    simpl. apply sendMove_ok. by eapply directionForKey_valid.
  - unfold onKeyUp.
    destruct (directionForKey (key e)) as [d|] eqn:Hd; [|by constructor].
    fold (released d c).
    assert (Hrel : ∀ x, x ∈ heldOrder (released d c) → x ∈ directions).
    { intros x. unfold released. case_decide; [|apply Hv]. simpl.
      intros [_ Hx]%list_elem_of_filter. by apply Hv. }
    case_decide; simpl.
    { apply sendStop_ok. }
    destruct (heldOrder (released d c)) as [|nextDir rest];
      [by constructor|].
    destruct (String.eqb nextDir ""); [by constructor|]. simpl.
    apply sendMove_ok, Hrel. by left.
  - unfold onBlur. case_decide; simpl; [by constructor|].
    apply sendStop_ok.
Qed.

(** X5.  Whatever the events, every message the client sends is the join
    with the hard-coded user name, a stop, or a move that carries one of the
    four direction tokens. *)
Theorem sent_messages_well_formed (evs : list event) (w h now : Q) (m : wire) :
  m ∈ snd (run evs (initial w h now)) → wire_ok m.
Proof.
  assert (G : ∀ evs c, reachable c → Forall wire_ok (snd (run evs c))).
  { clear. induction evs as [|ev evs IH]; intros c Hr; simpl;
      [by constructor|].
    pose proof (handle_out_ok ev c (reachable_held_valid c Hr)) as H1.
    pose proof (reachable_step ev c Hr) as H2.
    destruct (handle ev c) as [c1 o1]; simpl in *.
    specialize (IH c1 H2). destruct (run evs c1) as [c2 o2]; simpl in *.
    by apply Forall_app. }
  intros Hm. pose proof (G evs (initial w h now) (reachable_initial w h now))
    as HF. rewrite Forall_forall in HF. by apply HF.
Qed.

Lemma sent_messages_well_formed_witness : wire_ok (WMove "left").
Proof.
  apply (sent_messages_well_formed three_held 800 600 0).
  replace (snd (run three_held (initial 800 600 0)))
    with [WJoin "brittC"; WMove "up"; WMove "left"; WMove "down"]
    by (vm_compute; reflexivity).
  do 2 right. left.
Defined.

(** ** Input and the registry *)

Lemma input_players ev c :
  is_input ev = true →
  players (fst (handle ev c)) = players c ∨
  ∃ d b, players (fst (handle ev c)) = players (setMyLocalMovement d b c).
Proof.
  destruct ev as [m|now|e|e| |w h| |]; try done; intros _; simpl.
  - unfold onKeyDown.
    destruct (String.eqb (key e) " " || String.eqb (code e) "Space"); simpl.
    { left. by destruct (triggerJump_spec c) as [j ->]. }
    destruct (directionForKey (key e)) as [d|]; simpl; [|by left].
    right. exists (Some d), true.
    case_decide; [done|]. unfold setMyLocalMovement, my_player; simpl.
    by destruct (myPlayerId c) as [i|];
      [destruct (String.eqb i ""); [|destruct (players c !! i)]|].
  - unfold onKeyUp.
    destruct (directionForKey (key e)) as [d|]; simpl; [|by left].
    fold (released d c).
    assert (Hp : ∀ x b, players (setMyLocalMovement x b (released d c)) =
                        players (setMyLocalMovement x b c)).
    { intros x b. unfold released. case_decide; [|done].
      unfold setMyLocalMovement, my_player; simpl.
      by destruct (myPlayerId c) as [i|];
        [destruct (String.eqb i ""); [|destruct (players c !! i)]|]. }
    assert (Hp0 : players (released d c) = players c)
      by (unfold released; by case_decide).
    case_decide; simpl; [right; by exists None, false|].
    destruct (heldOrder (released d c)) as [|nextDir rest]; simpl;
      [by left|].
    destruct (String.eqb nextDir ""); simpl; [by left|].
    right. by exists (Some nextDir), true.
  - unfold onBlur. case_decide; simpl; [by left|].
    right. exists None, false.
    unfold setMyLocalMovement, my_player; simpl.
    by destruct (myPlayerId c) as [i|];
      [destruct (String.eqb i ""); [|destruct (players c !! i)]|].
Qed.

Lemma setMyLocalMovement_local d b c id :
  (myPlayerId c ≠ Some id →
     players (setMyLocalMovement d b c) !! id = players c !! id) ∧
  (players c !! id = None →
     players (setMyLocalMovement d b c) !! id = None) ∧
  (∀ p, players c !! id = Some p →
     ∃ p', players (setMyLocalMovement d b c) !! id = Some p' ∧
           pos_x p' = pos_x p ∧ pos_y p' = pos_y p ∧
           ∀ k, k ≠ "facing" → k ≠ "isMoving" →
                fields p' !! k = fields p !! k).
Proof.
  unfold setMyLocalMovement.
  destruct (my_player c) as [[i me]|] eqn:E; [|by eauto 10].
  apply my_player_Some in E as (Hid & _ & Hi). simpl.
  destruct (decide (i = id)) as [<-|Hne].
  - rewrite lookup_insert_eq. split; [by rewrite Hid|split; [congruence|]].
    intros p Hp. rewrite Hi in Hp. injection Hp as <-.
    eexists; split; [done|]. simpl.
    destruct d as [x|]; [destruct (String.eqb x "")|]; simpl;
      (split; [done|split; [done|]]); intros k K1 K2;
      by rewrite ?lookup_insert_ne by done.
  - rewrite lookup_insert_ne by done. eauto 10.
Qed.

(** X6.  Key and focus events never create or remove a registry entry,
    never change any player's authoritative position, and leave every
    property other than [facing] and [isMoving] as it was; records of
    players other than the local one stay exactly as they are, and so do the
    render states, the camera, the avatar table and the local identifier. *)
Theorem input_touches_only_local_echo (ev : event) (c : GameClient) :
  is_input ev = true →
  let c' := fst (handle ev c) in
  playerRenderState c' = playerRenderState c ∧
  viewportX c' = viewportX c ∧ viewportY c' = viewportY c ∧
  avatars c' = avatars c ∧ loadedImages c' = loadedImages c ∧
  myPlayerId c' = myPlayerId c ∧
  ∀ id,
    (myPlayerId c ≠ Some id → players c' !! id = players c !! id) ∧
    (players c !! id = None → players c' !! id = None) ∧
    (∀ p, players c !! id = Some p →
       ∃ p', players c' !! id = Some p' ∧
             pos_x p' = pos_x p ∧ pos_y p' = pos_y p ∧
             ∀ k, k ≠ "facing" → k ≠ "isMoving" →
                  fields p' !! k = fields p !! k).
Proof.
  intros Hin c'. subst c'.
  destruct (input_spec ev c Hin) as (s & o & ps & j & E).
  repeat (split; [by rewrite E|]).
  intros id. destruct (input_players ev c Hin) as [->|(d & b & ->)].
  - split; [done|split; [done|]]. intros p Hp. eauto 10.
  - apply setMyLocalMovement_local.
Qed.

Lemma input_touches_only_local_echo_witness :
  ∃ p', players (fst (handle (KeyDown (KeyEvent "ArrowLeft" "ArrowLeft"))
                        joined_once)) !! "a" = Some p' ∧
        pos_x p' = 100%Q ∧ pos_y p' = 100%Q ∧
        fields p' !! "username" = Some (JStr "ann").
Proof.
  destruct (input_touches_only_local_echo
              (KeyDown (KeyEvent "ArrowLeft" "ArrowLeft")) joined_once
              eq_refl) as (_ & _ & _ & _ & _ & _ & H).
  destruct (H "a") as (_ & _ & H3).
  destruct (H3 ann) as (p' & E & Hx & Hy & Hk); [vm_compute; reflexivity|].
  exists p'. split; [exact E|]. split; [exact Hx|]. split; [exact Hy|].
  rewrite Hk; [vm_compute; reflexivity|discriminate|discriminate].
Defined.

(** ** The jump gesture *)

Local Open Scope Q_scope.

Lemma advance_jump_ok dtMs j : 0 <= dtMs → jump_ok j → jump_ok (advance_jump dtMs j).
Proof.
  intros Hd (H1 & H2 & H3). unfold advance_jump, jump_ok in *.
  destruct (isJumping j) eqn:Ej; [|by rewrite Ej].
  destruct (Qle_bool (durationMs j) (elapsedMs j + dtMs)) eqn:E; simpl.
  - done.
  - split; [done|split; [done|]]. split; [lra|].
    apply Qnot_le_lt. intros Hle. rewrite <- H1 in Hle.
    apply Qle_bool_iff in Hle. congruence.
Qed.

Lemma triggerJump_ok c : jump_ok (jumpState c) → jump_ok (jumpState (triggerJump c)).
Proof.
  intros (H1 & H2 & H3). unfold triggerJump.
  destruct (isJumping (jumpState c)) eqn:Ej; [by unfold jump_ok; rewrite Ej|].
  simpl. unfold jump_ok; simpl. split; [done|split; [done|lra]].
Qed.

Lemma input_jumpState ev c :
  is_input ev = true →
  jumpState (fst (handle ev c)) = jumpState c ∨
  jumpState (fst (handle ev c)) = jumpState (triggerJump c).
Proof.
  destruct ev as [m|now|e|e| |w h| |]; try done; intros _; simpl.
  - unfold onKeyDown.
    destruct (String.eqb (key e) " " || String.eqb (code e) "Space"); simpl;
      [by right|].
    destruct (directionForKey (key e)) as [d|]; simpl; [|by left]. left.
    match goal with |- context [setMyLocalMovement ?a ?b ?s] =>
      destruct (setMyLocalMovement_spec a b s) as [ps ->] end.
    by case_decide.
  - left. unfold onKeyUp.
    destruct (directionForKey (key e)) as [d|]; simpl; [|done].
    fold (released d c).
    assert (Hj : jumpState (released d c) = jumpState c)
      by (unfold released; by case_decide).
    case_decide; simpl.
    { by destruct (setMyLocalMovement_spec None false (released d c))
        as [ps ->]. }
    destruct (heldOrder (released d c)) as [|nextDir rest]; simpl; [done|].
    destruct (String.eqb nextDir ""); simpl; [done|].
    by destruct (setMyLocalMovement_spec (Some nextDir) true (released d c))
      as [ps ->].
  - left. unfold onBlur. case_decide; simpl; [done|].
    by destruct (setMyLocalMovement_spec None false (set_held ∅ [] c))
      as [ps ->].
Qed.

Lemma render_jumpState now c :
  jumpState (render now c) =
  advance_jump (Qmax 0 (now - lastFrameTimeMs c)) (jumpState c).
Proof. by destruct (render_spec now c) as (vx & vy & ->). Qed.

Lemma handle_jump_ok ev c :
  jump_ok (jumpState c) → jump_ok (jumpState (fst (handle ev c))).
Proof.
  intros Hj.
  destruct (is_input ev) eqn:Ei.
  { destruct (input_jumpState ev c Ei) as [-> | ->];
      [done|by apply triggerJump_ok]. }
  destruct ev as [m|now|e|e| |w h| |]; try done.
  - change (jump_ok (jumpState (handleServerMessage m c))).
    destruct m as [pid ps avs|err|pid p av|ps|pid|act]; try done.
    + by destruct (handle_join_spec pid ps avs c) as (vx & vy & li & ->).
    + by rewrite handle_joined_spec.
    + by rewrite handle_moved_spec.
  - change (jump_ok (jumpState (render now c))). rewrite render_jumpState.
    apply advance_jump_ok; [apply Q.le_max_l|done].
Qed.

Lemma reachable_jump_ok c : reachable c → jump_ok (jumpState c).
Proof.
  induction 1 as [w h now|ev c _ IH]; [|by apply handle_jump_ok].
  unfold jump_ok; simpl. done.
Qed.

(** X7.  In every state the client can be in, the jump lasts 400 ms and
    peaks at 12 px; while a jump is in progress its elapsed time is at least
    0 and below 400 ms, and while none is in progress it is 0. *)
Theorem jump_elapsed_in_range (c : GameClient) :
  reachable c →
  durationMs (jumpState c) = 400 ∧ peakOffsetPx (jumpState c) = 12 ∧
  (isJumping (jumpState c) = true →
     0 <= elapsedMs (jumpState c) ∧ elapsedMs (jumpState c) < 400) ∧
  (isJumping (jumpState c) = false → elapsedMs (jumpState c) = 0).
Proof.
  intros Hr. destruct (reachable_jump_ok c Hr) as (H1 & H2 & H3).
  split; [done|split; [done|]].
  destruct (isJumping (jumpState c)); split; done.
Qed.

Lemma jump_elapsed_in_range_witness :
  isJumping (jumpState (render 150 jumping)) = true ∧
  0 <= elapsedMs (jumpState (render 150 jumping)) ∧
  elapsedMs (jumpState (render 150 jumping)) < 400.
Proof.
  assert (Hj : isJumping (jumpState (render 150 jumping)) = true)
    by (vm_compute; reflexivity).
  split; [exact Hj|].
  destruct (jump_elapsed_in_range (render 150 jumping)) as (_ & _ & H & _).
  - apply (reachable_step (Frame 150) jumping). apply reachable_run.
    constructor.
  - exact (H Hj).
Defined.

Local Close Scope Q_scope.

(** X9.  A key-down of the space bar (by [key] or by [code]) sends nothing
    and changes nothing but the jump gesture, even when [key] names an
    arrow; if a jump is in progress it is not restarted (the client stays as
    it is), otherwise a jump starts with elapsed time 0. *)
Theorem space_bar_only_jumps (e : key_event) (c : GameClient) :
  String.eqb (key e) " " || String.eqb (code e) "Space" = true →
  snd (onKeyDown e c) = [] ∧
  (∃ j, fst (onKeyDown e c) = set_jumpState j c) ∧
  (isJumping (jumpState c) = true → fst (onKeyDown e c) = c) ∧
  (isJumping (jumpState c) = false →
     isJumping (jumpState (fst (onKeyDown e c))) = true ∧
     elapsedMs (jumpState (fst (onKeyDown e c))) = 0%Q ∧
     durationMs (jumpState (fst (onKeyDown e c))) = durationMs (jumpState c) ∧
     peakOffsetPx (jumpState (fst (onKeyDown e c)))
       = peakOffsetPx (jumpState c)).
Proof.
  intros Hs. unfold onKeyDown. rewrite Hs. simpl.
  split; [done|split; [apply triggerJump_spec|]].
  unfold triggerJump. split; intros ->; done.
Qed.

Lemma space_bar_only_jumps_witness :
  fst (onKeyDown (KeyEvent "ArrowUp" "Space") (render 150 jumping))
  = render 150 jumping ∧
  snd (onKeyDown (KeyEvent "ArrowUp" "Space") (set_wsOpen true jumping)) = [].
Proof.
  destruct (space_bar_only_jumps (KeyEvent "ArrowUp" "Space")
              (render 150 jumping)) as (_ & _ & H & _); [reflexivity|].
  destruct (space_bar_only_jumps (KeyEvent "ArrowUp" "Space")
              (set_wsOpen true jumping)) as (H0 & _); [reflexivity|].
  split; [apply H; vm_compute; reflexivity|exact H0].
Defined.

(** ** Message Reconciler: joins and departures *)

(** X10.  An accepted join sets the local identifier, replaces the registry
    and the avatar table by the snapshot, keeps the render states that were
    there and seeds one (smoothed position = authoritative position,
    accumulator 0, cursor 0) for every other identifier of the snapshot.  If
    the snapshot lists the local player (under a non-empty identifier) the
    camera is recentred at once on its render state; if the local
    identifier is empty, or is missing from the snapshot and does not name a
    property inherited from [Object.prototype], the camera stays where it
    was. *)
Theorem join_installs_snapshot (pid : string) (ps : gmap string player)
    (avs : gmap string avatar) (c : GameClient) :
  let c' := handleServerMessage (JoinGameSuccess pid ps avs) c in
  myPlayerId c' = Some pid ∧ players c' = ps ∧ avatars c' = avs ∧
  (∀ id, playerRenderState c' !! id =
         match playerRenderState c !! id with
         | Some st => Some st
         | None => seed_of <$> ps !! id
         end) ∧
  (∀ me, pid ≠ "" → ps !! pid = Some me →
     let focus := default (seed_of me) (playerRenderState c !! pid) in
     viewportX c' =
       clamp_offset (renderX focus - canvasWidth c / 2)
         (worldWidth c) (canvasWidth c) ∧
     viewportY c' =
       clamp_offset (renderY focus - canvasHeight c / 2)
         (worldHeight c) (canvasHeight c)) ∧
  (pid = "" ∨ (ps !! pid = None ∧ pid ∉ inherited_keys) →
     viewportX c' = viewportX c ∧ viewportY c' = viewportY c).
Proof.
  intros c'. subst c'.
  destruct (handle_join_spec pid ps avs c) as (vx & vy & li & E).
  split; [by rewrite E|]. split; [by rewrite E|]. split; [by rewrite E|].
  split.
  { intros id. rewrite handle_join_renderState, lookup_union, lookup_fmap.
    by destruct (playerRenderState c !! id), (ps !! id). }
  clear E. simpl.
  destruct (loadAvatarImages_spec
    (set_avatars avs (set_players ps (set_myPlayerId (Some pid) c))))
    as [li' ->].
  rewrite ensureRenderStates_spec; simpl.
  unfold centerViewportOnPlayer, my_player; simpl.
  split.
  - intros me Hpid Hme. apply String.eqb_neq in Hpid. rewrite Hpid, Hme.
    simpl. rewrite lookup_union, lookup_fmap, Hme.
    by destruct (playerRenderState c !! pid).
  - intros [->|[Hnone _]]; [done|].
    destruct (String.eqb pid ""); [done|]. by rewrite Hnone.
Qed.


(** X12.  A player-left message removes the record and the render state of
    the identifier it names and nothing else; for an identifier the client
    does not know it changes nothing at all.  When the identifier is the
    local player's own and does not name a property inherited from
    [Object.prototype], the local identifier stays set but, with the record
    gone, recentring the camera and the local movement echo no longer do
    anything. *)
Theorem player_left_removes (pid : string) (c : GameClient) :
  let c' := handleServerMessage (PlayerLeft pid) c in
  players c' !! pid = None ∧ playerRenderState c' !! pid = None ∧
  (∀ j, j ≠ pid → players c' !! j = players c !! j ∧
                   playerRenderState c' !! j = playerRenderState c !! j) ∧
  avatars c' = avatars c ∧ loadedImages c' = loadedImages c ∧
  myPlayerId c' = myPlayerId c ∧
  viewportX c' = viewportX c ∧ viewportY c' = viewportY c ∧
  (players c !! pid = None → playerRenderState c !! pid = None → c' = c) ∧
  (myPlayerId c = Some pid → pid ∉ inherited_keys →
     centerViewportOnPlayer c' = c' ∧
     ∀ d b, setMyLocalMovement d b c' = c').
Proof.
  intros c'. subst c'. simpl.
  split; [apply lookup_delete_eq|]. split; [apply lookup_delete_eq|].
  split; [intros j Hj; by rewrite !lookup_delete_ne|].
  repeat (split; [done|]). split.
  - intros H1 H2. rewrite !delete_id by done. by destruct c.
  - intros Hme _.
    assert (Hnone : my_player
      (set_playerRenderState (delete pid (playerRenderState c))
         (set_players (delete pid (players c)) c)) = None).
    { unfold my_player; simpl. rewrite Hme.
      destruct (String.eqb pid ""); [done|]. by rewrite lookup_delete_eq. }
    split.
    + by apply recenter_without_player.
    + intros d b. unfold setMyLocalMovement. by rewrite Hnone.
Qed.

(** ** Avatar images *)

Lemma loadAvatarImages_cache c :
  ∃ li, loadAvatarImages c = set_loadedImages li c ∧
        (∀ n fr, loadedImages c !! n = Some fr → li !! n = Some fr) ∧
        (∀ k av, avatars c !! k = Some av → is_Some (li !! av_name av)) ∧
        (∀ n fr, li !! n = Some fr →
           loadedImages c !! n = Some fr ∨
           ∃ k av, avatars c !! k = Some av ∧ av_name av = n ∧
                   av_frames av = fr).
Proof.
  unfold loadAvatarImages.
  apply (map_fold_weak_ind (λ r (m : gmap string avatar),
    ∃ li, r = set_loadedImages li c ∧
          (∀ n fr, loadedImages c !! n = Some fr → li !! n = Some fr) ∧
          (∀ k av, m !! k = Some av → is_Some (li !! av_name av)) ∧
          (∀ n fr, li !! n = Some fr →
             loadedImages c !! n = Some fr ∨
             ∃ k av, m !! k = Some av ∧ av_name av = n ∧ av_frames av = fr))).
  - exists (loadedImages c). rewrite set_loadedImages_id.
    split; [done|split; [done|split]].
    + intros k av. by rewrite lookup_empty.
    + intros n fr H. by left.
  - intros i av m r Hi (li & -> & H1 & H2 & H3).
    unfold loadAvatarImage; simpl.
    destruct (li !! av_name av) as [fr0|] eqn:E.
    + exists li. split; [done|split; [done|split]].
      * intros k av' [[-> ->]|[Hne Hk]]%lookup_insert_Some;
          [by rewrite E|by eapply H2].
      * intros n fr Hn. destruct (H3 n fr Hn) as [?|(k & av' & Hk & ? & ?)];
          [by left|right].
        exists k, av'. split; [|done]. rewrite lookup_insert_ne; [done|].
        intros <-. congruence.
    + exists (<[av_name av := av_frames av]> li).
      split; [done|split; [|split]].
      * intros n fr Hn. rewrite lookup_insert_ne; [by apply H1|].
        intros <-. apply H1 in Hn. congruence.
      * intros k av' [[-> ->]|[Hne Hk]]%lookup_insert_Some.
        { by rewrite lookup_insert_eq. }
        destruct (decide (av_name av = av_name av')) as [->|Hn].
        { by rewrite lookup_insert_eq. }
        rewrite lookup_insert_ne by done. by eapply H2.
      * intros n fr [[<- <-]|[Hne Hn]]%lookup_insert_Some.
        { right. exists i, av. by rewrite lookup_insert_eq. }
        destruct (H3 n fr Hn) as [?|(k & av' & Hk & ? & ?)]; [by left|right].
        exists k, av'. split; [|done]. rewrite lookup_insert_ne; [done|].
        intros <-. congruence.
Qed.

Lemma handle_loadedImages ev c n fr :
  loadedImages c !! n = Some fr →
  loadedImages (fst (handle ev c)) !! n = Some fr.
Proof.
  intros H. destruct (is_input ev) eqn:Ei.
  { by destruct (input_spec ev c Ei) as (s & o & ps & j & ->). }
  destruct ev as [m|now|e|e| |w h| |]; try done.
  - change (loadedImages (handleServerMessage m c) !! n = Some fr).
    destruct m as [pid ps avs|err|pid p av|ps|pid|act]; try done.
    + simpl.
      destruct (loadAvatarImages_cache
        (set_avatars avs (set_players ps (set_myPlayerId (Some pid) c))))
        as (li & -> & H1 & _).
      rewrite ensureRenderStates_spec; simpl.
      match goal with |- context [centerViewportOnPlayer ?s] =>
        destruct (centerViewportOnPlayer_spec s) as (vx & vy & ->) end.
      simpl. by apply H1.
    + rewrite handle_joined_spec; simpl.
      destruct (loadedImages c !! av_name av) eqn:E; [done|].
      rewrite lookup_insert_ne; [done|]. intros <-. congruence.
    + by rewrite handle_moved_spec.
  - change (loadedImages (render now c) !! n = Some fr).
    by destruct (render_spec now c) as (vx & vy & ->).
Qed.

(** X13.  The image cache is write-once per avatar name: whatever events
    follow, an avatar name that has images keeps exactly those images (a
    later avatar of the same name updates the table, not the images). *)
Theorem image_cache_is_write_once (evs : list event) (c : GameClient)
    (n : string) (fr : gmap string (list string)) :
  loadedImages c !! n = Some fr →
  loadedImages (fst (run evs c)) !! n = Some fr.
Proof.
  revert c. induction evs as [|ev evs IH]; intros c H; simpl; [done|].
  pose proof (handle_loadedImages ev c n fr H) as H1.
  destruct (handle ev c) as [c1 o1]; simpl in *.
  specialize (IH c1 H1). by destruct (run evs c1) as [c2 o2].
Qed.



Lemma image_cache_is_write_once_witness :
  loadedImages
    (fst (run [Inbound (PlayerJoined "c" bob (Avatar "knight" ∅));
               Frame 16]
            joined_with_avatars)) !! "knight"
  = Some (av_frames knight).
Proof.
  apply image_cache_is_write_once. vm_compute. reflexivity.
Defined.


(** ** Frames *)

Local Open Scope Q_scope.

(** X16.  A frame whose clock reading is not later than the previous one
    sees no elapsed time: it leaves the smoothed position of every entity
    that has a render state where it was, leaves accumulator and cursor of a
    moving entity as they were, does not advance a jump, and still records
    the reading as the new previous frame time. *)
Theorem frame_without_elapsed_time (now : Q) (c : GameClient) :
  reachable c → now <= lastFrameTimeMs c →
  lastFrameTimeMs (render now c) = now ∧
  isJumping (jumpState (render now c)) = isJumping (jumpState c) ∧
  elapsedMs (jumpState (render now c)) == elapsedMs (jumpState c) ∧
  ∀ id p st, players c !! id = Some p →
    playerRenderState c !! id = Some st →
    ∃ st', playerRenderState (render now c) !! id = Some st' ∧
           renderX st' == renderX st ∧ renderY st' == renderY st ∧
           (moving p = true →
              animMs st' == animMs st ∧ frameIndex st' = frameIndex st).
Proof.
  intros Hr Hle.
  assert (Hd : Qmax 0 (now - lastFrameTimeMs c) == 0)
    by (apply Q.max_l; lra).
  split; [apply render_lastFrameTimeMs|].
  rewrite render_jumpState.
  destruct (reachable_jump_ok c Hr) as (J1 & _ & J3).
  split; [|split].
  - unfold advance_jump. destruct (isJumping (jumpState c)) eqn:Ej; [|done].
    rewrite J1.
    destruct (Qle_bool 400 _) eqn:E; [|done].
    apply Qle_bool_iff in E. rewrite Hd in E. lra.
  - unfold advance_jump. destruct (isJumping (jumpState c)) eqn:Ej;
      [|reflexivity].
    rewrite J1.
    destruct (Qle_bool 400 _) eqn:E; simpl; [|rewrite Hd; lra].
    apply Qle_bool_iff in E. rewrite Hd in E. lra.
  - intros id p st Hp Hs. rewrite render_lookup, Hp, Hs. simpl.
    eexists; split; [done|].
    set (dtMs := Qmax 0 (now - lastFrameTimeMs c)) in *.
    assert (Hd0 : 0 <= dtMs) by apply Q.le_max_l.
    assert (Ht : smoothing_factor (dtMs / 1000) == 0).
    { rewrite smoothing_factor_short by (rewrite Hd; lra).
      rewrite Hd. reflexivity. }
    destruct (advance_render_state_pos dtMs p st) as [-> ->].
    rewrite Ht. split; [ring|split; [ring|]].
    intros Hm.
    pose proof (reachable_entries_ok c Hr id st Hs) as Hok.
    destruct (moving_tick dtMs p st Hm Hd0 Hok) as [E1 E2].
    destruct Hok as (A0 & A1 & Hf).
    unfold animationFrameDurationMs in *.
    assert (Hfl : Qfloor ((animMs st + dtMs) / 120) = 0%Z).
    { apply Qfloor_unique; inj_consts.
      - assert (E : animMs st + dtMs == (animMs st + dtMs) / 120 * 120)
          by field.
        set (q := (animMs st + dtMs) / 120) in *. lra.
      - change (inject_Z (0 + 1)) with 1.
        assert (E : animMs st + dtMs == (animMs st + dtMs) / 120 * 120)
          by field.
        set (q := (animMs st + dtMs) / 120) in *. lra. }
    rewrite Hfl in E1, E2. inj_consts.
    split; [rewrite E1, Hd; ring|].
    rewrite E2, Z.add_0_r. apply Z.mod_small. lia.
Qed.

Lemma frame_without_elapsed_time_witness :
  lastFrameTimeMs (render 20 half_way) = 20 ∧
  ∃ st', playerRenderState (render 20 half_way) !! "a" = Some st' ∧
         renderX st' == 150 ∧ animMs st' == 50.
Proof.
  assert (Hr : reachable half_way).
  { apply (reachable_step (Frame 50) after_move_a).
    apply (reachable_step (Inbound (PlayersMoved move_a)) joined_once).
    apply (reachable_step
             (Inbound (JoinGameSuccess "a" {[ "a" := ann ]} ∅))
             (initial 800 600 0)).
    constructor. }
  destruct (frame_without_elapsed_time 20 half_way Hr) as (H1 & _ & _ & H);
    [by vm_compute|].
  split; [exact H1|].
  destruct (H "a" (Player 200 100 {[ "facing" := JStr "east";
                                     "isMoving" := JBool true ]})
              (RenderState (150000 # 1000) (100000 # 1000) 50 0))
    as (st' & E & Hx & _ & Hm); [vm_compute; reflexivity ..|].
  exists st'. split; [exact E|].
  destruct (Hm eq_refl) as [Ha _].
  split; [rewrite Hx|rewrite Ha]; reflexivity.
Defined.

(** X17.  A frame never changes the registry, the avatar table, the image
    cache, the local identifier, the held directions or the socket state; it
    records its clock reading, gives every entity of the registry a render
    state, and leaves render states of identifiers outside the registry as
    they are. *)
Theorem frame_covers_registry (now : Q) (c : GameClient) :
  players (render now c) = players c ∧
  avatars (render now c) = avatars c ∧
  loadedImages (render now c) = loadedImages c ∧
  myPlayerId (render now c) = myPlayerId c ∧
  pressedDirections (render now c) = pressedDirections c ∧
  heldOrder (render now c) = heldOrder c ∧
  wsOpen (render now c) = wsOpen c ∧
  lastFrameTimeMs (render now c) = now ∧
  (∀ id, is_Some (players c !! id) →
         is_Some (playerRenderState (render now c) !! id)) ∧
  (∀ id, players c !! id = None →
         playerRenderState (render now c) !! id = playerRenderState c !! id).
Proof.
  destruct (render_spec now c) as (vx & vy & E).
  repeat (split; [by rewrite E|]). split.
  - intros id [p Hp]. rewrite render_lookup, Hp. simpl. eauto.
  - intros id Hp. by rewrite render_lookup, Hp.
Qed.

(** ** Camera *)

Lemma my_player_render now c : my_player (render now c) = my_player c.
Proof.
  destruct (render_spec now c) as (vx & vy & ->). done.
Qed.

Lemma render_viewport now c :
  viewportX (render now c) =
    viewportX (centerViewportOnPlayer
      (set_playerRenderState
         (merge (tick_entry (Qmax 0 (now - lastFrameTimeMs c)))
            (players c) (playerRenderState c))
         (set_lastFrameTimeMs now c))) ∧
  viewportY (render now c) =
    viewportY (centerViewportOnPlayer
      (set_playerRenderState
         (merge (tick_entry (Qmax 0 (now - lastFrameTimeMs c)))
            (players c) (playerRenderState c))
         (set_lastFrameTimeMs now c))).
Proof. unfold render. simpl. by rewrite render_players_spec. Qed.

(** X18.  After a frame the camera is centred on the local player's
    smoothed position as that frame left it (not on the authoritative
    position): each offset is that coordinate minus half the canvas, clamped.
    When neither axis is clamped, [worldToScreen] puts the smoothed position
    at the centre of the canvas. *)
Theorem camera_follows_smoothed_position (now : Q) (c : GameClient)
    (id : string) (me : player) :
  my_player c = Some (id, me) →
  ∃ st', playerRenderState (render now c) !! id = Some st' ∧
    viewportX (render now c) =
      clamp_offset (renderX st' - canvasWidth c / 2)
        (worldWidth c) (canvasWidth c) ∧
    viewportY (render now c) =
      clamp_offset (renderY st' - canvasHeight c / 2)
        (worldHeight c) (canvasHeight c) ∧
    (0 <= renderX st' - canvasWidth c / 2 <= worldWidth c - canvasWidth c →
     0 <= renderY st' - canvasHeight c / 2 <= worldHeight c - canvasHeight c →
     fst (worldToScreen (renderX st') (renderY st') (render now c))
       == canvasWidth c / 2 ∧
     snd (worldToScreen (renderX st') (renderY st') (render now c))
       == canvasHeight c / 2).
Proof.
  intros Hme. pose proof (my_player_Some c id me Hme) as (Hid & Hne & Hp).
  assert (Hl := render_lookup now c id). rewrite Hp in Hl. simpl in Hl.
  eexists. split; [exact Hl|].
  set (st' := advance_render_state (Qmax 0 (now - lastFrameTimeMs c)) me
                (default (seed_of me) (playerRenderState c !! id))) in *.
  assert (Hv : viewportX (render now c) =
                 clamp_offset (renderX st' - canvasWidth c / 2)
                   (worldWidth c) (canvasWidth c) ∧
               viewportY (render now c) =
                 clamp_offset (renderY st' - canvasHeight c / 2)
                   (worldHeight c) (canvasHeight c)).
  { destruct (render_viewport now c) as [-> ->].
    set (c2 := set_playerRenderState _ _).
    assert (Hmp : my_player c2 = Some (id, me)) by exact Hme.
    unfold centerViewportOnPlayer. rewrite Hmp. subst c2. simpl.
    rewrite lookup_merge, Hp.
    destruct (playerRenderState c !! id); done. }
  destruct Hv as [Hx Hy]. split; [exact Hx|split; [exact Hy|]].
  intros Bx By. unfold worldToScreen. cbn [fst snd]. rewrite Hx, Hy.
  destruct (clamp_offset_spec (renderX st' - canvasWidth c / 2)
              (worldWidth c) (canvasWidth c)) as [X1 _].
  destruct (clamp_offset_spec (renderY st' - canvasHeight c / 2)
              (worldHeight c) (canvasHeight c)) as [Y1 _].
  destruct X1 as (_ & X2 & _); [lra|].
  destruct Y1 as (_ & Y2 & _); [lra|].
  rewrite X2, Y2 by lra. split; ring.
Qed.

Lemma camera_follows_smoothed_position_witness :
  viewportX (render 16 mid_world) == 600 ∧
  viewportY (render 16 mid_world) == 600.
Proof.
  destruct (camera_follows_smoothed_position 16 mid_world "a"
              (Player 1000 900 ∅)) as (st' & E & Hx & Hy & _);
    [vm_compute; reflexivity|].
  assert (E' : playerRenderState (render 16 mid_world) !! "a" =
               Some (RenderState (1000000 # 1000) (900000 # 1000) 0 0))
    by (vm_compute; reflexivity).
  rewrite E' in E. injection E as <-.
  rewrite Hx, Hy. split; vm_compute; reflexivity.
Defined.

Lemma centerViewportOnPlayer_camera_ok c :
  camera_ok c → camera_ok (centerViewportOnPlayer c).
Proof.
  intros (H1 & H2 & H3 & H4). unfold centerViewportOnPlayer.
  destruct (my_player c) as [[id me]|]; [|done].
  unfold camera_ok, clamp_offset; simpl.
  split; [apply Q.le_max_l|split; [apply Q.le_max_l|done]].
Qed.

Lemma handle_camera_ok ev c : camera_ok c → camera_ok (fst (handle ev c)).
Proof.
  intros Hc. destruct (is_input ev) eqn:Ei.
  { by destruct (input_spec ev c Ei) as (s & o & ps & j & ->). }
  destruct ev as [m|now|e|e| |w h| |]; try done.
  - change (camera_ok (handleServerMessage m c)).
    destruct m as [pid ps avs|err|pid p av|ps|pid|act]; try done.
    + simpl.
      destruct (loadAvatarImages_spec
        (set_avatars avs (set_players ps (set_myPlayerId (Some pid) c))))
        as [li ->].
      rewrite ensureRenderStates_spec.
      by apply centerViewportOnPlayer_camera_ok.
    + by rewrite handle_joined_spec.
    + by rewrite handle_moved_spec.
  - change (camera_ok (render now c)). unfold render. simpl.
    rewrite render_players_spec.
    match goal with |- camera_ok (set_jumpState _ ?s) =>
      assert (H : camera_ok s)
        by (by apply centerViewportOnPlayer_camera_ok);
      by destruct s end.
Qed.

Lemma handle_myPlayerId ev c :
  myPlayerId (fst (handle ev c)) =
  match ev with
  | Inbound (JoinGameSuccess pid _ _) => Some pid
  | _ => myPlayerId c
  end.
Proof.
  destruct (is_input ev) eqn:Ei.
  { destruct (input_spec ev c Ei) as (s & o & ps & j & ->).
    by destruct ev. }
  destruct ev as [m|now|e|e| |w h| |]; try done.
  - change (fst (handle (Inbound m) c)) with (handleServerMessage m c).
    destruct m as [pid ps avs|err|pid p av|ps|pid|act]; try done.
    + by destruct (handle_join_spec pid ps avs c) as (vx & vy & li & ->).
    + by rewrite handle_joined_spec.
    + by rewrite handle_moved_spec.
  - change (fst (handle (Frame now) c)) with (render now c).
    by destruct (render_spec now c) as (vx & vy & ->).
Qed.

Lemma handle_plain_camera ev c :
  plain_event ev → camera_ok c → plain_me c →
  camera_ok (fst (handle ev c)) ∧ plain_me (fst (handle ev c)).
Proof.
  intros Hev Hc Hme. split; [by apply handle_camera_ok|].
  intros id. rewrite handle_myPlayerId.
  destruct ev as [m|now|e|e| |w h| |]; try apply Hme.
  destruct m as [pid ps avs|err|pid p av|ps|pid|act]; try apply Hme.
  by intros [= <-].
Qed.

Lemma run_plain_camera evs c :
  Forall plain_event evs → camera_ok c → plain_me c →
  camera_ok (fst (run evs c)) ∧ plain_me (fst (run evs c)).
Proof.
  intros Hevs. revert c.
  induction Hevs as [|ev evs Hev _ IH]; intros c Hc Hme; simpl; [done|].
  destruct (handle_plain_camera ev c Hev Hc Hme) as [Hc1 Hme1].
  destruct (handle ev c) as [c1 o1].
  specialize (IH c1 Hc1 Hme1). by destruct (run evs c1) as [c2 o2].
Qed.

(** X19.  Over every session in which no accepted join names a property
    inherited from [Object.prototype] as the local identifier and no
    message writes a record under such a name, the local identifier is
    never such a name (so the guard of [centerViewportOnPlayer] passes on an
    own record only), the camera offset is not negative on either axis and
    the world measures 2048 x 2048. *)
Theorem camera_offset_never_negative (evs : list event) (w h now : Q) :
  Forall plain_event evs →
  let c := fst (run evs (initial w h now)) in
  0 <= viewportX c ∧ 0 <= viewportY c ∧
  worldWidth c = 2048 ∧ worldHeight c = 2048 ∧
  (∀ id, myPlayerId c = Some id → id ∉ inherited_keys).
Proof.
  intros Hevs c.
  destruct (run_plain_camera evs (initial w h now) Hevs) as [Hc Hme].
  - unfold camera_ok. simpl. repeat split; lra.
  - intros id [=].
  - destruct Hc as (H1 & H2 & H3 & H4). done.
Qed.

Lemma camera_offset_never_negative_witness :
  0 <= viewportX (render 16 mid_world) ∧ 0 <= viewportY (render 16 mid_world).
Proof.
  destruct (camera_offset_never_negative
              [Inbound (JoinGameSuccess "a" {[ "a" := Player 1000 900 ∅ ]} ∅);
               Frame 16] 800 600 0)
    as (H1 & H2 & _); [|by split].
  repeat constructor. apply (bool_decide_unpack _). vm_compute. exact I.
Defined.

Local Close Scope Q_scope.

(** ** The first message *)

(** X20.  The first message the client ever sends is the join: whatever
    the events since start-up, if anything was sent, it begins with the join
    carrying the hard-coded user name. *)
Theorem first_message_is_join (evs : list event) (w h now : Q)
    (m : wire) (rest : list wire) :
  snd (run evs (initial w h now)) = m :: rest → m = WJoin "brittC".
Proof.
  assert (G : ∀ evs c, wsOpen c = false →
                snd (run evs c) = m :: rest → m = WJoin "brittC").
  { clear. induction evs as [|ev evs IH]; intros c Hc; simpl; [done|].
    assert (Hcase : ev = SocketOpen ∨ ev ≠ SocketOpen)
      by (destruct ev; (by left) || (by right)).
    destruct Hcase as [->|Hev].
    - simpl. destruct (run evs (set_wsOpen true c)) as [c2 o2]; simpl.
      by intros [= <- _].
    - pose proof (handle_closed_silent ev c Hc Hev) as Hout.
      assert (Hw : wsOpen (fst (handle ev c)) = false)
        by (destruct ev; try (by rewrite handle_wsOpen); done).
      destruct (handle ev c) as [c1 o1]; simpl in *. subst o1.
      specialize (IH c1 Hw). destruct (run evs c1) as [c2 o2]; simpl in *.
      exact IH. }
  apply G. done.
Qed.

Lemma first_message_is_join_witness :
  hd_error (snd (run three_held (initial 800 600 0))) = Some (WJoin "brittC").
Proof.
  destruct (snd (run three_held (initial 800 600 0))) as [|m rest] eqn:E.
  - vm_compute in E. discriminate E.
  - simpl. f_equal.
    exact (first_message_is_join three_held 800 600 0 m rest E).
Defined.

(** * Drawing: properties *)

Section DrawingProperties.

Variable numberToString : Q → string.
Variable arrayIndex : jsval → option nat.
Variable sinPi : Q → Q.

Local Open Scope Q_scope.

Lemma Qltb_lt a b : Qltb a b = true ↔ a < b.
Proof.
  unfold Qltb. rewrite negb_true_iff. split.
  - intros H. apply Qnot_le_lt. intros Hle. apply Qle_bool_iff in Hle.
    congruence.
  - intros H. destruct (Qle_bool b a) eqn:E; [|done].
    apply Qle_bool_iff in E. lra.
Qed.

(** X21.  The visibility test never drops a sprite that overlaps the
    canvas: a screen position whose sprite rectangle (32 x 32, centred
    horizontally, standing on the position) meets the canvas passes the
    test. *)
Theorem culling_keeps_overlapping_sprites (x y : Q) (c : GameClient) :
  0 < x + avatarSize / 2 → x - avatarSize / 2 < canvasWidth c →
  0 < y → y - avatarSize < canvasHeight c →
  onScreen (x, y) c = true.
Proof.
  unfold onScreen, avatarSize. cbn [fst snd].
  assert (E16 : 32 / 2 == 16) by reflexivity.
  intros H1 H2 H3 H4. rewrite E16 in H1, H2.
  rewrite !andb_true_iff, !Qltb_lt. repeat split; lra.
Qed.

Lemma culling_keeps_overlapping_sprites_witness :
  onScreen (-10, 5) joined_once = true.
Proof.
  apply culling_keeps_overlapping_sprites; by vm_compute.
Defined.

(** X22.  For a player whose avatar is registered and loaded and whose
    render state has cursor [i]: facing west draws frame [i] of the west
    frames, or of the east frames when the avatar has no west frames, and
    in both cases mirrors it; facing any other direction draws frame [i]
    of that direction's frames unmirrored, and draws nothing when the
    avatar has no frames for it (east frames stand in for west only). *)
Theorem sprite_for_facing (p : player) (x y : Q) (st : render_state)
    (c : GameClient) (a : string)
    (frames : gmap string (list string)) (i : nat) :
  fields p !! "avatar" = Some (JStr a) →
  is_Some (avatars c !! a) → loadedImages c !! a = Some frames →
  frameIndex st = Z.of_nat i →
  (∀ l img,
     fields p !! "facing" = Some (JStr "west") →
     match frames !! "west" with
     | Some l' => Some l'
     | None => frames !! "east"
     end = Some l →
     l !! i = Some img →
     drawAvatar numberToString arrayIndex p (x, y) (Some st) c =
     [Save; Scale (-(1)) 1;
      DrawImage img (- (x - avatarSize / 2) - avatarSize) (y - avatarSize)
        avatarSize avatarSize;
      Restore]) ∧
  (∀ d l img,
     fields p !! "facing" = Some (JStr d) → d ≠ "west" →
     frames !! d = Some l → l !! i = Some img →
     drawAvatar numberToString arrayIndex p (x, y) (Some st) c =
     [Save;
      DrawImage img (x - avatarSize / 2) (y - avatarSize)
        avatarSize avatarSize;
      Restore]) ∧
  (∀ d,
     fields p !! "facing" = Some (JStr d) → d ≠ "west" →
     frames !! d = None →
     drawAvatar numberToString arrayIndex p (x, y) (Some st) c = []).
Proof.
  intros Ha [av Hav] Hli Hi.
  assert (Hsub : frameSubscript arrayIndex p (Some st) = Some i).
  { unfold frameSubscript. rewrite Hi.
    destruct (0 <=? Z.of_nat i)%Z eqn:E; [by rewrite Nat2Z.id|].
    apply Z.leb_gt in E. lia. }
  split; [|split].
  - intros l img Hf Hl Himg. unfold drawAvatar.
    rewrite Ha. cbn [propertyKey mapKey mbind option_bind].
    rewrite Hav, Hli, Hf. cbn [propertyKey is_west].
    change (String.eqb "west" "west") with true.
    destruct (frames !! "west") as [l'|] eqn:Ew.
    + injection Hl as ->. rewrite Hsub. cbn [mbind option_bind].
      by rewrite Himg.
    + rewrite Hl, Hsub. cbn [mbind option_bind]. by rewrite Himg.
  - intros d l img Hf Hd Hl Himg. unfold drawAvatar.
    rewrite Ha. cbn [propertyKey mapKey mbind option_bind].
    rewrite Hav, Hli, Hf. cbn [propertyKey is_west].
    rewrite Hl, Hsub. cbn [mbind option_bind]. rewrite Himg.
    apply String.eqb_neq in Hd. by rewrite Hd.
  - intros d Hf Hd Hnone. unfold drawAvatar.
    rewrite Ha. cbn [propertyKey mapKey mbind option_bind].
    rewrite Hav, Hli, Hf. cbn [propertyKey is_west].
    rewrite Hnone. apply String.eqb_neq in Hd. by rewrite Hd.
Qed.


(** X24.  The jump moves only the local player's sprite, and only up:
    for any other player, and for the local player when no jump is in
    progress, the screen position is [worldToScreen] of the smoothed
    position; for the local player during a jump the horizontal position
    is the same and the vertical one is raised by
    [sin(t * pi) * 12] with [t = elapsed / 400], which stays below 1 (the
    clamp of [t] to 1 never applies). *)
Theorem jump_offsets_only_local_player (id : string) (p : player)
    (c : GameClient) :
  let posX := match playerRenderState c !! id with
              | Some st => renderX st | None => pos_x p end in
  let posY := match playerRenderState c !! id with
              | Some st => renderY st | None => pos_y p end in
  (myPlayerId c ≠ Some id ∨ isJumping (jumpState c) = false →
     screenPosition sinPi id p c = worldToScreen posX posY c) ∧
  (reachable c → myPlayerId c = Some id →
   isJumping (jumpState c) = true →
     let t := Qmin 1 (elapsedMs (jumpState c) / durationMs (jumpState c)) in
     screenPosition sinPi id p c =
       (posX - viewportX c, posY - viewportY c - sinPi t * 12) ∧
     t == elapsedMs (jumpState c) / 400 ∧ 0 <= t ∧ t < 1).
Proof.
  intros posX posY. unfold screenPosition. fold posX posY. split.
  - intros [Hne|Hj].
    + by rewrite bool_decide_eq_false_2.
    + by rewrite Hj, andb_false_r.
  - intros Hr Hme Hj.
    rewrite bool_decide_eq_true_2, Hj by done. cbn [andb].
    destruct (reachable_jump_ok c Hr) as (J1 & J2 & J3).
    rewrite Hj in J3. destruct J3 as [J3 J4].
    set (t := Qmin 1 (elapsedMs (jumpState c) / durationMs (jumpState c))).
    rewrite J2. split; [done|].
    assert (E : elapsedMs (jumpState c)
                == elapsedMs (jumpState c) / 400 * 400) by field.
    assert (Ht : t == elapsedMs (jumpState c) / 400).
    { subst t. rewrite J1. apply Q.min_r.
      set (q := elapsedMs (jumpState c) / 400) in *. lra. }
    split; [done|]. rewrite Ht.
    set (q := elapsedMs (jumpState c) / 400) in *. split; lra.
Qed.

End DrawingProperties.

(** The gallery: "b" (west frames of its own) and "c" (east frames only)
    are both drawn mirrored. *)
Lemma sprite_for_facing_witness :
  drawAvatar (λ _, "") (λ _, None)
    (Player 120 100 {[ "username" := JStr "bob"; "avatar" := JStr "mage";
                       "facing" := JStr "west" ]})
    (120, 100)%Q (Some (RenderState 120 100 0 1)) gallery
  = [Save; Scale (-(1)) 1;
     DrawImage "w1" (- (120 - avatarSize / 2) - avatarSize)%Q
       (100 - avatarSize)%Q avatarSize avatarSize;
     Restore] ∧
  drawAvatar (λ _, "") (λ _, None)
    (Player 140 100 {[ "username" := JStr "cat"; "avatar" := JStr "knight";
                       "facing" := JStr "west" ]})
    (140, 100)%Q (Some (RenderState 140 100 0 2)) gallery
  = [Save; Scale (-(1)) 1;
     DrawImage "e2" (- (140 - avatarSize / 2) - avatarSize)%Q
       (100 - avatarSize)%Q avatarSize avatarSize;
     Restore].
Proof.
  split.
  - eapply (sprite_for_facing (λ _, "") (λ _, None) _ 120 100
              (RenderState 120 100 0 1) gallery "mage" (av_frames mage) 1);
      try (vm_compute; reflexivity).
    vm_compute. eauto.
  - eapply (sprite_for_facing (λ _, "") (λ _, None) _ 140 100
              (RenderState 140 100 0 2) gallery "knight"
              (av_frames knight) 2);
      try (vm_compute; reflexivity).
    vm_compute. eauto.
Defined.


(** During the jump of "a", 150 ms in, "a" itself is raised and nobody
    else would be. *)
Lemma jump_offsets_only_local_player_witness :
  screenPosition (λ _, 1%Q) "b" bob (render 150 jumping)
  = worldToScreen 5 7 (render 150 jumping) ∧
  Qeq (snd (screenPosition (λ _, 1%Q) "a" ann (render 150 jumping)))
      (100 - 12).
Proof.
  destruct (jump_offsets_only_local_player (λ _, 1%Q) "b" bob
              (render 150 jumping)) as [H1 _].
  destruct (jump_offsets_only_local_player (λ _, 1%Q) "a" ann
              (render 150 jumping)) as [_ H2].
  split.
  - rewrite H1; [vm_compute; reflexivity|]. left. vm_compute. discriminate.
  - destruct H2 as (-> & _); [|vm_compute; reflexivity ..].
    apply (reachable_step (Frame 150) jumping). apply reachable_run.
    constructor.
Defined.

(** * Two more invariants of the reconciler and the interpolator *)



(** X26.  In every state the client can be in, the animation accumulator
    of every render state is at least 0 and below the frame duration of
    120 ms. *)
Theorem accumulator_below_frame_duration (c : GameClient) (id : string)
    (st : render_state) :
  reachable c → playerRenderState c !! id = Some st →
  (0 <= animMs st)%Q ∧ (animMs st < 120)%Q.
Proof.
  intros Hr H. destruct (reachable_entries_ok c Hr id st H) as (H1 & H2 & _).
  by split.
Qed.

Lemma accumulator_below_frame_duration_witness :
  (0 <= animMs (RenderState 200 100 40 2))%Q ∧
  (animMs (RenderState 200 100 40 2) < 120)%Q.
Proof.
  apply (accumulator_below_frame_duration one_second_later "a").
  - apply reachable_run. constructor.
  - vm_compute. reflexivity.
Defined.
